(** * Firehose output plugin: batch accumulator, retry coordinator, watchdog

    A shallow embedding of [firehose/firehose.go]: [AddRecord], [Flush],
    [processRecord], [sendCurrentBatch] and [processAPIResponse], over an
    explicit plugin state.  The call to the Firehose client
    ([PutRecordBatch]) is an uninterpreted event of a small free monad
    [Proc]; its reply is supplied by whoever runs the program. *)

From Stdlib Require Import ZArith Lia Strings.String Strings.Ascii Strings.Byte.
From stdpp Require Import base list.

Local Open Scope Z_scope.

(* ------------------------------------------------------------------ *)
(** ** Data *)

Definition bytes := list byte.

(** Go's [len] on a slice. *)
Definition len {A} (l : list A) : Z := Z.of_nat (length l).

(** Firehose API limits and the truncation marker. *)
Definition maximumRecordsPerPut : Z := 500.
Definition maximumPutRecordBatchSize : Z := 4194304.
Definition maximumRecordSize : Z := 1024000.
Definition truncatedSuffix : bytes := list_byte_of_string "[Truncated...]".

(** fluent-bit-go's return codes. *)
Definition FLB_ERROR : Z := 0.
Definition FLB_OK : Z := 1.
Definition FLB_RETRY : Z := 2.

Definition ErrCodeServiceUnavailableException : string :=
  "ServiceUnavailableException".

(** [firehose.Record] *)
Record FirehoseRecord := mkRecord { Data : bytes }.

(** [firehose.PutRecordBatchResponseEntry] *)
Record PutRecordBatchResponseEntry := mkEntry {
  ErrorCode : option string;
  ErrorMessage : option string;
  RecordId : option string
}.

(** [firehose.PutRecordBatchOutput] *)
Record PutRecordBatchOutput := mkOutput {
  FailedPutCount : option Z;
  RequestResponses : list PutRecordBatchResponseEntry
}.

(** [aws.Int64Value] and [aws.StringValue]: nil reads as the zero value. *)
Definition Int64Value (p : option Z) : Z := default 0 p.
Definition StringValue (p : option string) : string := default ""%string p.

(** What the client's [PutRecordBatch] returns: a transport error
    (its [awserr] code) or a response. *)
Inductive PutResult :=
  | PutErr (code : string)
  | PutOk (response : PutRecordBatchOutput).

(* ------------------------------------------------------------------ *)
(** ** Failure watchdog *)

(** Modelled from the spec: [plugins.Timeout] (package [plugins], not
    among the sources).  [Start] sets failing-since to now only if it is
    not set, [Reset] clears it, [Check] fires the fatal callback when
    failing-since is set and more than [threshold] has elapsed. *)
Record Timeout := mkTimeout {
  failingSince : option Z;
  threshold : Z
}.

Definition timer_Start (now : Z) (t : Timeout) : Timeout :=
  match failingSince t with
  | None => mkTimeout (Some now) (threshold t)
  | Some _ => t
  end.

Definition timer_Reset (t : Timeout) : Timeout := mkTimeout None (threshold t).

(** [true] when the fatal callback ([os.Exit(1)]) fires. *)
Definition timer_Check (now : Z) (t : Timeout) : bool :=
  match failingSince t with
  | Some since => bool_decide (threshold t < now - since)
  | None => false
  end.

(* ------------------------------------------------------------------ *)
(** ** The program monad *)

(** [Call req k]: the client's [PutRecordBatch] with records [req], the
    program continuing with [k] of the reply.  [Exited] is [os.Exit(1)]
    from the watchdog, [Panicked] a Go runtime panic (index out of range). *)
Inductive Proc (A : Type) : Type :=
  | Ret (a : A)
  | Call (req : list FirehoseRecord) (k : PutResult -> Proc A)
  | Exited
  | Panicked.
Arguments Ret {A} a.
Arguments Call {A} req k.
Arguments Exited {A}.
Arguments Panicked {A}.

Fixpoint proc_bind {A B} (m : Proc A) (f : A -> Proc B) : Proc B :=
  match m with
  | Ret a => f a
  | Call req k => Call req (fun r => proc_bind (k r) f)
  | Exited => Exited
  | Panicked => Panicked
  end.

Global Instance proc_mret : MRet Proc := @Ret.
Global Instance proc_mbind : MBind Proc := fun A B f m => proc_bind m f.

(** Running a program against a list of client replies, one per call. *)
Inductive Outcome (A : Type) :=
  | Done (a : A) (rest : list PutResult)
  | Halted
  | NoReply.
Arguments Done {A} a rest.
Arguments Halted {A}.
Arguments NoReply {A}.

Fixpoint interp {A} (replies : list PutResult) (p : Proc A) {struct p}
    : Outcome A :=
  match p with
  | Ret a => Done a replies
  | Call _ k =>
      match replies with
      | [] => NoReply
      | r :: rs => interp rs (k r)
      end
  | Exited | Panicked => Halted
  end.

(** Every value a program can return, whatever the replies, satisfies [P]. *)
Fixpoint proc_all {A} (P : A -> Prop) (p : Proc A) : Prop :=
  match p with
  | Ret a => P a
  | Call _ k => forall r, proc_all P (k r)
  | Exited | Panicked => True
  end.

(** Every request a program can issue, whatever the replies, satisfies [P]. *)
Fixpoint calls_all {A} (P : list FirehoseRecord -> Prop) (p : Proc A) : Prop :=
  match p with
  | Ret _ => True
  | Call req k => P req /\ forall r, calls_all P (k r)
  | Exited | Panicked => True
  end.

(* ------------------------------------------------------------------ *)
(** ** Record encoding collaborators *)

(** What [AddRecord] and [processRecord] use of the record representation
    ([map[interface{}]interface{}]) and of the libraries that format and
    encode it:
    - [strftimeFormat fmt ts]: [fmtStrftime.Format], [None] on error;
    - [setKey record k v]: [record[k] = v];
    - [encodeRecord dataKeys replaceDots logKey record]: lines 253-285 of
      [processRecord] (data keys, decoding, dot replacement, log key or
      JSON marshalling), [None] on error. *)
Class RecordCodec (LogRecord Time : Type) := {
  strftimeFormat : string -> Time -> option string;
  setKey : LogRecord -> string -> string -> LogRecord;
  encodeRecord : string -> string -> string -> LogRecord -> option bytes
}.

(* ------------------------------------------------------------------ *)
(** ** The plugin *)

(** [OutputPlugin] (the client is the [Call] event). *)
Record OutputPlugin := mkPlugin {
  region : string;
  deliveryStream : string;
  dataKeys : string;
  timeKey : string;
  fmtStrftime : string;
  logKey : string;
  records : list FirehoseRecord;
  dataLength : Z;
  timer : Timeout;
  PluginID : Z;
  replaceDots : string;
  simpleAggregation : bool
}.

Definition set_records (o : OutputPlugin) (rs : list FirehoseRecord) (n : Z)
    : OutputPlugin :=
  mkPlugin (region o) (deliveryStream o) (dataKeys o) (timeKey o)
    (fmtStrftime o) (logKey o) rs n (timer o) (PluginID o) (replaceDots o)
    (simpleAggregation o).

Definition set_timer (o : OutputPlugin) (t : Timeout) : OutputPlugin :=
  mkPlugin (region o) (deliveryStream o) (dataKeys o) (timeKey o)
    (fmtStrftime o) (logKey o) (records o) (dataLength o) t (PluginID o)
    (replaceDots o) (simpleAggregation o).

(** [NewOutputPlugin] once the client and timer are built: an empty
    batch ([make([]*firehose.Record, 0, 500)]), [dataLength] zero and a
    watchdog that is not failing. *)
Definition NewOutputPlugin (region deliveryStream dataKeys timeKey timeFmt
    logKey replaceDots : string) (pluginID : Z) (simpleAggregation : bool)
    (timeoutThreshold : Z) : OutputPlugin :=
  mkPlugin region deliveryStream dataKeys timeKey
    (if String.eqb timeKey "" then ""
     else if String.eqb timeFmt "" then "%Y-%m-%dT%H:%M:%S" else timeFmt)
    logKey [] 0 (mkTimeout None timeoutThreshold) pluginID replaceDots
    simpleAggregation.

Section Plugin.
Context {LogRecord Time : Type} `{!RecordCodec LogRecord Time}.

(** [processRecord]: encode, append a newline, truncate oversize data.
    [inl] is the error. *)
Definition processRecord (output : OutputPlugin) (record : LogRecord)
    : string + bytes :=
  match encodeRecord (dataKeys output) (replaceDots output) (logKey output)
          record with
  | None => inl "Failed to marshal record"%string
  | Some data0 =>
      let data := data0 ++ [x0a] in
      if len data >? maximumRecordSize then
        inr (take (Z.to_nat (maximumRecordSize - len truncatedSuffix)) data
             ++ truncatedSuffix)
      else inr data
  end.

(** The loop of [processAPIResponse] over [response.RequestResponses]:
    [Some failedRecords] when it runs to the end, [None] on the early
    [return FLB_RETRY] for a service-unavailable code. *)
Fixpoint collectFailed (recs : list FirehoseRecord) (i : nat)
    (resps : list PutRecordBatchResponseEntry)
    (failedRecords : list FirehoseRecord)
    : Proc (option (list FirehoseRecord)) :=
  match resps with
  | [] => Ret (Some failedRecords)
  | rr :: resps' =>
      failedRecords' ←
        match ErrorMessage rr with
        | Some _ =>
            match recs !! i with
            | Some r => Ret (failedRecords ++ [r])
            | None => Panicked
            end
        | None => Ret failedRecords
        end;
      if String.eqb (StringValue (ErrorCode rr))
           ErrCodeServiceUnavailableException
      then Ret None
      else collectFailed recs (S i) resps' failedRecords'
  end.

Definition sumDataLength (recs : list FirehoseRecord) : Z :=
  fold_left (fun acc r => acc + len (Data r)) recs 0.

Definition processAPIResponse (now : Z) (response : PutRecordBatchOutput)
    (output : OutputPlugin) : Proc (OutputPlugin * Z * option string) :=
  if Int64Value (FailedPutCount response) >? 0 then
    if Int64Value (FailedPutCount response) =? len (records output) then
      Ret (set_timer output (timer_Start now (timer output)), FLB_RETRY,
           Some "PutRecordBatch request returned with no records successfully recieved"%string)
    else
      res ← collectFailed (records output) 0 (RequestResponses response) [];
      match res with
      | None => Ret (output, FLB_RETRY, None)
      | Some failedRecords =>
          Ret (set_records output failedRecords (sumDataLength failedRecords),
               FLB_OK, None)
      end
  else
    Ret (set_records (set_timer output (timer_Reset (timer output))) [] 0,
         FLB_OK, None).

Definition sendCurrentBatch (now : Z) (output : OutputPlugin)
    : Proc (OutputPlugin * Z * option string) :=
  match records output with
  | [] => Ret (output, FLB_OK, None)
  | _ =>
      if timer_Check now (timer output) then Exited
      else
        Call (records output) (fun reply =>
          match reply with
          | PutErr code =>
              Ret (set_timer output (timer_Start now (timer output)),
                   FLB_RETRY, Some code)
          | PutOk response => processAPIResponse now response output
          end)
  end.

Definition lastRecord (recs : list FirehoseRecord) : FirehoseRecord :=
  default (mkRecord []) (recs !! (length recs - 1)%nat).

(** Lines 212-220 of [AddRecord]: coalesce or append, then count. *)
Definition appendData (output : OutputPlugin) (data : bytes) : OutputPlugin :=
  let recs := records output in
  let recs' :=
    if simpleAggregation output && bool_decide (0 < length recs)%nat
       && (len (Data (lastRecord recs)) + len data <=? maximumRecordSize)
    then <[ (length recs - 1)%nat := mkRecord (Data (lastRecord recs) ++ data) ]> recs
    else recs ++ [mkRecord data] in
  set_records output recs' (dataLength output + len data).

(** Lines 184-192 of [AddRecord]: inject the formatted timestamp;
    [None] when formatting fails. *)
Definition stampRecord (output : OutputPlugin) (record : LogRecord)
    (timeStamp : Time) : option LogRecord :=
  if String.eqb (timeKey output) "" then Some record
  else match strftimeFormat (fmtStrftime output) timeStamp with
       | None => None
       | Some ts => Some (setKey record (timeKey output) ts)
       end.

Definition AddRecord (output : OutputPlugin) (record : LogRecord)
    (timeStamp : Time) (now : Z) : Proc (OutputPlugin * Z) :=
  match stampRecord output record timeStamp with
  | None => Ret (output, FLB_ERROR)
  | Some record =>
      match processRecord output record with
      | inl _ => Ret (output, FLB_OK)
      | inr data =>
          let newDataSize := len data in
          if (len (records output) =? maximumRecordsPerPut)
             || (dataLength output + newDataSize >? maximumPutRecordBatchSize)
          then
            '(output', retCode, _) ← sendCurrentBatch now output;
            if negb (retCode =? FLB_OK) then Ret (output', retCode)
            else Ret (appendData output' data, FLB_OK)
          else Ret (appendData output data, FLB_OK)
      end
  end.

Definition Flush (now : Z) (output : OutputPlugin) : Proc (OutputPlugin * Z) :=
  '(output', retCode, _) ← sendCurrentBatch now output;
  Ret (output', retCode).

(** A sequence of calls made by the host on one plugin instance. *)
Inductive Op :=
  | AddRecordOp (record : LogRecord) (timeStamp : Time) (now : Z)
  | FlushOp (now : Z).

Fixpoint runOps (output : OutputPlugin) (ops : list Op) : Proc OutputPlugin :=
  match ops with
  | [] => Ret output
  | op :: ops' =>
      '(output', _) ←
        match op with
        | AddRecordOp record ts now => AddRecord output record ts now
        | FlushOp now => Flush now output
        end;
      runOps output' ops'
  end.

End Plugin.

(* ------------------------------------------------------------------ *)
(** ** Predicates used in the statements *)

(** Whether a response entry reports an error ([record.ErrorMessage != nil]). *)
Definition outcomeHasError (rr : PutRecordBatchResponseEntry) : bool :=
  match ErrorMessage rr with Some _ => true | None => false end.

Definition isServiceUnavailable (rr : PutRecordBatchResponseEntry) : bool :=
  String.eqb (StringValue (ErrorCode rr)) ErrCodeServiceUnavailableException.

(** The records whose response entry reports an error, in request order. *)
Definition erroredRecords (recs : list FirehoseRecord)
    (resps : list PutRecordBatchResponseEntry) : list FirehoseRecord :=
  map fst (List.filter (fun p => outcomeHasError p.2) (combine recs resps)).

(* ------------------------------------------------------------------ *)
(** ** [dataLength] accounting *)

(** The tracked size equals the byte length of the held records. *)
Definition batchConsistent (output : OutputPlugin) : Prop :=
  dataLength output =
    Z.of_nat (sum_list_with (fun r => length (Data r)) (records output)).
(* ------------------------------------------------------------------ *)
(** ** Per-request limits *)

(** A [PutRecordBatch] request within the Firehose limits: at most 500
    records and at most 4 MiB of data. *)
Definition putRequestWithinLimits (req : list FirehoseRecord) : Prop :=
  len req <= maximumRecordsPerPut /\
  Z.of_nat (sum_list_with (fun r => length (Data r)) req) <= maximumPutRecordBatchSize.
(* ------------------------------------------------------------------ *)
(** ** Further predicates on programs *)

(** The program makes at most [n] client calls, whatever the replies. *)
Fixpoint calls_at_most {A} (n : nat) (p : Proc A) {struct p} : Prop :=
  match p with
  | Call _ k =>
      match n with
      | O => False
      | S n' => forall r, calls_at_most n' (k r)
      end
  | Ret _ | Exited | Panicked => True
  end.

(** Over the replies satisfying [R]: every request the program issues
    satisfies [Q] and every value it returns satisfies [P]. *)
Fixpoint guarded {A} (R : PutResult -> Prop) (Q : list FirehoseRecord -> Prop)
    (P : A -> Prop) (p : Proc A) : Prop :=
  match p with
  | Ret a => P a
  | Call req k => Q req /\ forall r, R r -> guarded R Q P (k r)
  | Exited | Panicked => True
  end.

(** A reply whose [FailedPutCount] is the number of its entries that
    report an error; a transport error is any reply. *)
Definition consistentReply (reply : PutResult) : Prop :=
  match reply with
  | PutErr _ => True
  | PutOk response =>
      len (List.filter outcomeHasError (RequestResponses response)) =
        Int64Value (FailedPutCount response)
  end.

(** A reply other than a response reporting no failure. *)
Definition notFullSuccess (reply : PutResult) : Prop :=
  match reply with
  | PutErr _ => True
  | PutOk response => 0 < Int64Value (FailedPutCount response)
  end.

(** A record within the Firehose per-record limit. *)
Definition recordFits (r : FirehoseRecord) : Prop :=
  len (Data r) <= maximumRecordSize.

(* ------------------------------------------------------------------ *)
(** ** [replaceDots] *)

(** Keys and values of a [map[interface{}]interface{}] record: a string
    key or another comparable key; a nested map or another value.  A map
    is an association list; [map_insert] keeps one entry per key. *)
#[warnings="-register-all"]
Inductive MapKey :=
  | KString (s : string)
  | KOther (n : Z).

#[warnings="-register-all"]
Inductive MapValue :=
  | VMap (m : list (MapKey * MapValue))
  | VOther (n : Z).

Definition MapKey_eqb (a b : MapKey) : bool :=
  match a, b with
  | KString s, KString t => String.eqb s t
  | KOther m, KOther n => Z.eqb m n
  | _, _ => false
  end.

(** [obj[k]] (when present), [delete(obj, k)] and [obj[k] = v]. *)
Definition map_lookup (k : MapKey) (m : list (MapKey * MapValue))
    : option MapValue :=
  snd <$> List.find (fun p => MapKey_eqb p.1 k) m.

Definition map_delete (k : MapKey) (m : list (MapKey * MapValue))
    : list (MapKey * MapValue) :=
  List.filter (fun p => negb (MapKey_eqb p.1 k)) m.

Definition map_insert (k : MapKey) (v : MapValue) (m : list (MapKey * MapValue))
    : list (MapKey * MapValue) :=
  (k, v) :: map_delete k m.

(** [strings.ReplaceAll(s, ".", r)]: every ['.'] byte replaced by [r]. *)
Fixpoint replaceAllDots (s r : string) : string :=
  match s with
  | EmptyString => EmptyString
  | String c s' =>
      if Ascii.eqb c "."%char then (r ++ replaceAllDots s' r)%string
      else String c (replaceAllDots s' r)
  end.

(** [curK]: string keys renamed, other keys kept. *)
Definition renameKey (r : string) (k : MapKey) : MapKey :=
  match k with
  | KString s => KString (replaceAllDots s r)
  | KOther n => KOther n
  end.

(** [replaceDots(obj, replacement)] (nested maps are not shared between
    entries, as in a decoded record).  Go leaves the [range] order open,
    does not produce an entry deleted before it is reached, and may or
    may not produce an entry created during the loop.  [replaceDotsLoop r m
    pending m'] is one run of the loop from the map [m], [pending] being the
    keys still to be produced: any of them may come next; the key [k]
    visited is deleted, a nested map value is processed recursively, and
    the value is stored under [renameKey r k], which the loop may produce
    later ([again]) when it is a new entry. *)
Inductive replaceDotsLoop (r : string)
    : list (MapKey * MapValue) -> list MapKey -> list (MapKey * MapValue) -> Prop :=
  | rdl_done m : replaceDotsLoop r m [] m
  | rdl_skip m p1 k p2 m' :
      map_lookup k m = None ->
      replaceDotsLoop r m (p1 ++ p2) m' ->
      replaceDotsLoop r m (p1 ++ k :: p2) m'
  | rdl_visit m p1 k p2 v v' (again : bool) m' :
      map_lookup k m = Some v ->
      replaceDotsValue r v v' ->
      (again = true -> ~ In (renameKey r k) (p1 ++ p2)) ->
      replaceDotsLoop r (map_insert (renameKey r k) v' (map_delete k m))
        (p1 ++ p2 ++ (if again then [renameKey r k] else [])) m' ->
      replaceDotsLoop r m (p1 ++ k :: p2) m'
with replaceDotsValue (r : string) : MapValue -> MapValue -> Prop :=
  | rdv_map m m' :
      replaceDotsLoop r m (map fst m) m' -> replaceDotsValue r (VMap m) (VMap m')
  | rdv_other n : replaceDotsValue r (VOther n) (VOther n).

Scheme replaceDotsLoop_mut := Induction for replaceDotsLoop Sort Prop
  with replaceDotsValue_mut := Induction for replaceDotsValue Sort Prop.

(** One run, executable: keys in list order, created entries not
    produced again; [fuel] bounds the nesting depth. *)
Fixpoint replaceDotsEntries (f : MapValue -> option MapValue) (r : string)
    (m : list (MapKey * MapValue)) (pending : list MapKey)
    : option (list (MapKey * MapValue)) :=
  match pending with
  | [] => Some m
  | k :: ks =>
      match map_lookup k m with
      | None => replaceDotsEntries f r m ks
      | Some v =>
          v' ← f v;
          replaceDotsEntries f r (map_insert (renameKey r k) v' (map_delete k m)) ks
      end
  end.

Fixpoint replaceDotsFuel (fuel : nat) (r : string) (v : MapValue)
    : option MapValue :=
  match fuel with
  | O => None
  | S fuel' =>
      match v with
      | VOther n => Some (VOther n)
      | VMap m => VMap <$> replaceDotsEntries (replaceDotsFuel fuel' r) r m (map fst m)
      end
  end.

Fixpoint hasDot (s : string) : bool :=
  match s with
  | EmptyString => false
  | String c s' => Ascii.eqb c "."%char || hasDot s'
  end.



Definition MapKey_eq_dec (a b : MapKey) : {a = b} + {a <> b}.
Proof. decide equality; [apply string_dec|apply Z.eq_dec]. Defined.

(* ------------------------------------------------------------------ *)
(** ** Concrete inputs *)

(** [payload n]: an encoding of [n] bytes. *)
Definition payload (n : N) : bytes := repeat x61 (N.to_nat n).

(** Records are given by the size of their encoding; formatting a
    negative timestamp fails. *)
Global Instance demoCodec : RecordCodec N Z := {|
  strftimeFormat _ t := if t <? 0 then None else Some "2026-10-16T00:00:00"%string;
  setKey r _ _ := r;
  encodeRecord _ _ _ n := Some (payload n)
|}.

Definition demoPlugin (timeKey : string) (aggregate : bool) : OutputPlugin :=
  NewOutputPlugin "us-east-1" "stream" "" timeKey "" "" "" 0 aggregate 60.

Definition okEntry : PutRecordBatchResponseEntry := mkEntry None None (Some "id"%string).
Definition failEntry (code : string) : PutRecordBatchResponseEntry :=
  mkEntry (Some code) (Some "failed"%string) None.

(** Large records: a record of [bigSize] bytes whose contents are fixed
    but never inspected (the proofs only use its length). *)
Record BigRecord := mkBig { bigSize : N }.

Lemma bigPayload_exists (n : N) : { d : bytes | length d = N.to_nat n }.
Proof. exists (repeat x61 (N.to_nat n)). apply repeat_length. Qed.

Definition bigPayload (n : N) : bytes := proj1_sig (bigPayload_exists n).
Arguments bigPayload : simpl never.

Global Instance bigCodec : RecordCodec BigRecord Z := {|
  strftimeFormat _ _ := Some "2026-10-16T00:00:00"%string;
  setKey r _ _ := r;
  encodeRecord _ _ _ r := Some (bigPayload (bigSize r))
|}.

(** Five records: four of 1,000,000 bytes and one of 1 byte (4,000,001
    bytes in all, newlines included), then a sixth of 1,000,000 bytes,
    then a flush. *)
Definition c1Ops : list (@Op BigRecord Z) :=
  [AddRecordOp (mkBig 999999) 0 0; AddRecordOp (mkBig 999999) 0 0;
   AddRecordOp (mkBig 999999) 0 0; AddRecordOp (mkBig 999999) 0 0;
   AddRecordOp (mkBig 0) 0 0; AddRecordOp (mkBig 999999) 0 0; FlushOp 0].

(** Firehose accepts only the 1-byte record of the five. *)
Definition c1PartialFailure : PutResult :=
  PutOk (mkOutput (Some 4)
    [failEntry "InternalFailure"; failEntry "InternalFailure";
     failEntry "InternalFailure"; failEntry "InternalFailure"; okEntry]).

(** Three held records of 2, 3 and 4 bytes (newlines included). *)
Definition threeRecords : list FirehoseRecord :=
  [mkRecord (payload 1 ++ [x0a]); mkRecord (payload 2 ++ [x0a]);
   mkRecord (payload 3 ++ [x0a])].

Definition threeHeld : OutputPlugin :=
  set_records (demoPlugin "" false) threeRecords 9.

Definition partialResponse : PutRecordBatchOutput :=
  mkOutput (Some 1) [okEntry; failEntry "InternalFailure"; okEntry].

Definition overloadResponse : PutRecordBatchOutput :=
  mkOutput (Some 1) [okEntry; failEntry ErrCodeServiceUnavailableException; okEntry].

Definition totalFailureResponse : PutRecordBatchOutput :=
  mkOutput (Some 3) [failEntry "InternalFailure"; failEntry "InternalFailure";
                     failEntry "InternalFailure"].

Definition successResponse : PutRecordBatchOutput :=
  mkOutput (Some 0) [okEntry; okEntry; okEntry].

(** Aggregation on, one held record of 3 bytes. *)
Definition oneHeldAggregating : OutputPlugin :=
  set_records (demoPlugin "" true) [mkRecord (payload 2 ++ [x0a])] 3.

(** A full batch: 500 records of 1 byte. *)
Definition fullHeld : OutputPlugin :=
  set_records (demoPlugin "" false) (repeat (mkRecord [x0a]) 500) 500.

(** Records that encode to [n] bytes, or cannot be encoded. *)
Inductive LogEntry :=
  | Encodable (n : N)
  | Unencodable.

Global Instance entryCodec : RecordCodec LogEntry Z := {|
  strftimeFormat _ _ := Some "2026-10-16T00:00:00"%string;
  setKey r _ _ := r;
  encodeRecord _ _ _ e :=
    match e with Encodable n => Some (payload n) | Unencodable => None end
|}.

(** A decoded record with dotted keys at two depths and a non-string key. *)
Definition dottedRecord : list (MapKey * MapValue) :=
  [(KString "kubernetes.pod.name", VOther 1);
   (KString "log", VMap [(KString "level.name", VOther 2)]);
   (KOther 7, VOther 3)].

Definition dottedRecordReplaced : list (MapKey * MapValue) :=
  [(KOther 7, VOther 3);
   (KString "log", VMap [(KString "level_name", VOther 2)]);
   (KString "kubernetes_pod_name", VOther 1)].

(** The batch of [threeHeld] with the watchdog running since time 0. *)
Definition failingHeld : OutputPlugin :=
  set_timer threeHeld (mkTimeout (Some 0) 60).

Definition extraEntryResponse : PutRecordBatchOutput :=
  mkOutput (Some 1) [okEntry; okEntry; okEntry; failEntry "InternalFailure"].

(* ------------------------------------------------------------------ *)
(** ** Examples *)

Example addRecord_two_entries :
  match interp [] ('(o, _) ← AddRecord (demoPlugin "" false) 99%N 0 0;
                   AddRecord o 199%N 0 0) with
  | Done (o, rc) _ => (map (fun r => len (Data r)) (records o), dataLength o, rc)
  | _ => ([], 0, 0)
  end = ([100; 200], 300, FLB_OK).
Proof. vm_compute. reflexivity. Qed.

Example addRecord_aggregated :
  match interp [] ('(o, _) ← AddRecord (demoPlugin "" true) 99%N 0 0;
                   AddRecord o 199%N 0 0) with
  | Done (o, rc) _ => (map (fun r => len (Data r)) (records o), dataLength o, rc)
  | _ => ([], 0, 0)
  end = ([300], 300, FLB_OK).
Proof. vm_compute. reflexivity. Qed.

Example processAPIResponse_partial :
  match interp []
    (o ← runOps (demoPlugin "" false)
        [AddRecordOp 0%N 0 0; AddRecordOp 1%N 0 0; AddRecordOp 2%N 0 0;
         AddRecordOp 3%N 0 0; AddRecordOp 4%N 0 0];
     processAPIResponse 0 (mkOutput (Some 2)
        [okEntry; failEntry "InternalFailure"; okEntry;
         failEntry "InternalFailure"; okEntry]) o) with
  | Done (o, rc, _) _ => (map (fun r => len (Data r)) (records o), dataLength o, rc)
  | _ => ([], 0, 0)
  end = ([2; 4], 6, FLB_OK).
Proof. vm_compute. reflexivity. Qed.

(* ------------------------------------------------------------------ *)
(** ** Response processing *)

Section Response.
Context {LogRecord Time : Type} `{!RecordCodec LogRecord Time}.

Lemma collectFailed_complete (recs : list FirehoseRecord) :
  forall resps i failed,
  (i + length resps <= length recs)%nat ->
  forallb (fun rr => negb (isServiceUnavailable rr)) resps = true ->
  collectFailed recs i resps failed =
    Ret (Some (failed ++ erroredRecords (drop i recs) resps)).
Proof.
  induction resps as [|rr resps IH]; intros i failed Hlen Hsu; cbn.
  - unfold erroredRecords. destruct (drop i recs); cbn; by rewrite app_nil_r.
  - cbn in Hlen. apply andb_true_iff in Hsu as [Hrr Hsu].
    destruct (lookup_lt_is_Some_2 recs i) as [r Hr]; [lia|].
    rewrite (drop_S _ _ _ Hr). unfold erroredRecords. cbn.
    unfold isServiceUnavailable in Hrr. apply negb_true_iff in Hrr.
    unfold outcomeHasError.
    destruct (ErrorMessage rr); cbn; [rewrite Hr; cbn|];
      rewrite Hrr; rewrite IH by (done || lia);
      unfold erroredRecords; [by rewrite <- app_assoc | done].
Qed.

Lemma collectFailed_overload (recs : list FirehoseRecord) :
  forall resps i failed,
  (i + length resps <= length recs)%nat ->
  existsb isServiceUnavailable resps = true ->
  collectFailed recs i resps failed = Ret None.
Proof.
  induction resps as [|rr resps IH]; intros i failed Hlen Hsu; cbn in *;
    [discriminate|].
  destruct (lookup_lt_is_Some_2 recs i) as [r Hr]; [lia|].
  unfold isServiceUnavailable in Hsu.
  destruct (ErrorMessage rr); cbn; [rewrite Hr; cbn|];
    (destruct (String.eqb _ _); [done|]); apply IH; cbn in Hsu; (done || lia).
Qed.

Lemma sumDataLength_acc (recs : list FirehoseRecord) (a : Z) :
  fold_left (fun acc r => acc + len (Data r)) recs a = a + sumDataLength recs.
Proof.
  unfold sumDataLength. revert a.
  induction recs as [|r recs IH]; intros a; cbn; [lia|].
  rewrite (IH (a + _)), (IH (0 + _)). lia.
Qed.

Lemma sumDataLength_sum_list (recs : list FirehoseRecord) :
  sumDataLength recs = Z.of_nat (sum_list_with (fun r => length (Data r)) recs).
Proof.
  induction recs as [|r recs IH]; [done|].
  unfold sumDataLength. cbn. rewrite sumDataLength_acc, IH.
  unfold len. lia.
Qed.

End Response.

(** C2: on a partial failure (0 < failedCount < records sent) whose
    entries carry no service-unavailable code, [processAPIResponse] keeps
    exactly the records whose entry reports an error, in request order,
    sets [dataLength] to the sum of their byte lengths and returns
    [FLB_OK]. *)
Theorem processAPIResponse_partial_keeps_failed (now : Z)
    (response : PutRecordBatchOutput) (output : OutputPlugin) :
  0 < Int64Value (FailedPutCount response) < len (records output) ->
  (length (RequestResponses response) <= length (records output))%nat ->
  forallb (fun rr => negb (isServiceUnavailable rr))
    (RequestResponses response) = true ->
  exists output',
    processAPIResponse now response output = Ret (output', FLB_OK, None) /\
    records output' = erroredRecords (records output) (RequestResponses response) /\
    dataLength output' =
      Z.of_nat (sum_list_with (fun r => length (Data r))
                  (erroredRecords (records output) (RequestResponses response))).
Proof.
  intros Hfc Hlen Hsu. unfold processAPIResponse.
  rewrite (proj2 (Z.gtb_lt _ _)) by lia.
  rewrite (proj2 (Z.eqb_neq _ _)) by lia.
  cbn. rewrite collectFailed_complete by (done || lia). cbn.
  eexists; split; [reflexivity|]. cbn. split; [done|].
  apply sumDataLength_sum_list.
Qed.

(** C3: on a partial failure in which some entry carries the
    service-unavailable code, [processAPIResponse] returns [FLB_RETRY]
    and leaves the plugin (the whole batch and [dataLength]) unchanged. *)
Theorem processAPIResponse_overload_keeps_batch (now : Z)
    (response : PutRecordBatchOutput) (output : OutputPlugin) :
  0 < Int64Value (FailedPutCount response) < len (records output) ->
  (length (RequestResponses response) <= length (records output))%nat ->
  existsb isServiceUnavailable (RequestResponses response) = true ->
  processAPIResponse now response output = Ret (output, FLB_RETRY, None).
Proof.
  intros Hfc Hlen Hsu. unfold processAPIResponse.
  rewrite (proj2 (Z.gtb_lt _ _)) by lia.
  rewrite (proj2 (Z.eqb_neq _ _)) by lia.
  cbn. rewrite collectFailed_overload by (done || lia). done.
Qed.

(** C4: when every sent record failed, [processAPIResponse] starts the
    watchdog, returns [FLB_RETRY] with an error, and leaves the batch and
    [dataLength] unchanged. *)
Theorem processAPIResponse_total_failure (now : Z)
    (response : PutRecordBatchOutput) (output : OutputPlugin) :
  records output <> [] ->
  Int64Value (FailedPutCount response) = len (records output) ->
  exists output' msg,
    processAPIResponse now response output = Ret (output', FLB_RETRY, Some msg) /\
    records output' = records output /\
    dataLength output' = dataLength output /\
    timer output' = timer_Start now (timer output) /\
    failingSince (timer output') <> None.
Proof.
  intros Hne Hfc. unfold processAPIResponse.
  assert (0 < len (records output)).
  { unfold len. destruct (records output); [done|]. cbn. lia. }
  rewrite (proj2 (Z.gtb_lt _ _)) by lia.
  rewrite Hfc, Z.eqb_refl.
  do 2 eexists; split; [reflexivity|]. cbn.
  do 3 (split; [done|]).
  unfold timer_Start. destruct (failingSince (timer output)) eqn:E; cbn;
    [rewrite E|]; discriminate.
Qed.

(** C8: when no record failed, [processAPIResponse] clears the watchdog,
    empties the batch, zeroes [dataLength] and returns [FLB_OK]. *)
Theorem processAPIResponse_full_success (now : Z)
    (response : PutRecordBatchOutput) (output : OutputPlugin) :
  Int64Value (FailedPutCount response) = 0 ->
  exists output',
    processAPIResponse now response output = Ret (output', FLB_OK, None) /\
    failingSince (timer output') = None /\
    records output' = [] /\
    dataLength output' = 0.
Proof.
  intros Hfc. unfold processAPIResponse. rewrite Hfc. cbn.
  eexists; split; [reflexivity|]. done.
Qed.

(* ------------------------------------------------------------------ *)
(** ** Monad laws used below *)

Lemma proc_bind_unfold {A B} (m : Proc A) (f : A -> Proc B) :
  (m ≫= f) = proc_bind m f.
Proof. done. Qed.

Lemma interp_bind {A B} (m : Proc A) (f : A -> Proc B) :
  forall replies,
  interp replies (m ≫= f) =
    match interp replies m with
    | Done a rest => interp rest (f a)
    | Halted => Halted
    | NoReply => NoReply
    end.
Proof.
  rewrite proc_bind_unfold.
  induction m as [a|req k IH| |]; intros replies; cbn; try done.
  destruct replies as [|r rs]; [done|]. apply IH.
Qed.

Lemma proc_all_bind {A B} (P : B -> Prop) (m : Proc A) (f : A -> Proc B) :
  proc_all (fun a => proc_all P (f a)) m -> proc_all P (m ≫= f).
Proof.
  rewrite proc_bind_unfold.
  induction m as [a|req k IH| |]; cbn; try done.
  intros H r. apply IH, H.
Qed.

Lemma proc_all_True {A} (m : Proc A) : proc_all (fun _ => True) m.
Proof. induction m; cbn; auto. Qed.

Lemma proc_all_impl {A} (P Q : A -> Prop) (m : Proc A) :
  (forall a, P a -> Q a) -> proc_all P m -> proc_all Q m.
Proof. induction m; cbn; auto. Qed.

Lemma proc_all_bind_any {A B} (P : B -> Prop) (m : Proc A) (f : A -> Proc B) :
  (forall a, proc_all P (f a)) -> proc_all P (m ≫= f).
Proof.
  intros H. apply proc_all_bind.
  apply (proc_all_impl (fun _ => True)); [intros; apply H|apply proc_all_True].
Qed.


Section Accounting.
Context {LogRecord Time : Type} `{!RecordCodec LogRecord Time}.

Lemma lastRecord_app (init : list FirehoseRecord) (l : FirehoseRecord) :
  lastRecord (init ++ [l]) = l.
Proof.
  unfold lastRecord. rewrite length_app. cbn.
  replace (length init + 1 - 1)%nat with (length init) by lia.
  by rewrite list_lookup_middle.
Qed.

Lemma insert_last (init : list FirehoseRecord) (l y : FirehoseRecord) :
  <[ (length (init ++ [l]) - 1)%nat := y ]> (init ++ [l]) = init ++ [y].
Proof.
  rewrite length_app. cbn.
  replace (length init + 1 - 1)%nat with (length init + 0)%nat by lia.
  by rewrite insert_app_r.
Qed.

Lemma appendData_consistent (output : OutputPlugin) (data : bytes) :
  batchConsistent output -> batchConsistent (appendData output data).
Proof.
  unfold batchConsistent, appendData. cbn. intros H.
  destruct (simpleAggregation output && _ && _) eqn:E.
  - apply andb_true_iff in E as [E _]. apply andb_true_iff in E as [_ E].
    apply bool_decide_eq_true in E.
    destruct (exists_last (l:=records output)) as (init & l & Hl);
      [destruct (records output); cbn in E; [lia|done]|].
    rewrite Hl, lastRecord_app, insert_last.
    rewrite Hl in H. rewrite !sum_list_with_app in *. cbn in *.
    rewrite length_app. unfold len. lia.
  - rewrite sum_list_with_app. cbn. unfold len. lia.
Qed.

Lemma processAPIResponse_consistent (now : Z) (response : PutRecordBatchOutput)
    (output : OutputPlugin) :
  batchConsistent output ->
  proc_all (fun '(o, _, _) => batchConsistent o)
    (processAPIResponse now response output).
Proof.
  intros H. unfold processAPIResponse.
  destruct (_ >? 0); [destruct (_ =? _)|]; cbn; [done| |done].
  apply proc_all_bind_any. intros [failed|]; cbn; [|done].
  unfold batchConsistent. cbn. apply sumDataLength_sum_list.
Qed.

Lemma sendCurrentBatch_consistent (now : Z) (output : OutputPlugin) :
  batchConsistent output ->
  proc_all (fun '(o, _, _) => batchConsistent o) (sendCurrentBatch now output).
Proof.
  intros H. unfold sendCurrentBatch.
  destruct (records output); [done|].
  destruct (timer_Check _ _); cbn; [done|].
  intros [code|response]; cbn; [done|].
  by apply processAPIResponse_consistent.
Qed.

Lemma AddRecord_consistent (output : OutputPlugin) (record : LogRecord)
    (timeStamp : Time) (now : Z) :
  batchConsistent output ->
  proc_all (fun '(o, _) => batchConsistent o) (AddRecord output record timeStamp now).
Proof.
  intros H. unfold AddRecord.
  destruct (stampRecord _ _ _); [|done].
  destruct (processRecord _ _) as [|data]; [done|].
  destruct (_ || _); cbn; [|by apply appendData_consistent].
  apply proc_all_bind.
  apply (proc_all_impl (fun '(o, _, _) => batchConsistent o));
    [|by apply sendCurrentBatch_consistent].
  intros [[o rc] e] Ho. destruct (negb _); cbn; [done|].
  by apply appendData_consistent.
Qed.

Lemma Flush_consistent (now : Z) (output : OutputPlugin) :
  batchConsistent output ->
  proc_all (fun '(o, _) => batchConsistent o) (Flush now output).
Proof.
  intros H. unfold Flush. apply proc_all_bind.
  apply (proc_all_impl (fun '(o, _, _) => batchConsistent o));
    [|by apply sendCurrentBatch_consistent].
  by intros [[o rc] e].
Qed.

Lemma runOps_consistent (ops : list (@Op LogRecord Time)) :
  forall output, batchConsistent output ->
  proc_all batchConsistent (runOps output ops).
Proof.
  induction ops as [|op ops IH]; intros output H; cbn; [done|].
  apply proc_all_bind.
  apply (proc_all_impl (fun '(o, _) => batchConsistent o)).
  - intros [o rc] Ho. by apply IH.
  - destruct op; [by apply AddRecord_consistent|by apply Flush_consistent].
Qed.

(** C5: from a freshly built plugin, after any sequence of [AddRecord]
    and [Flush] calls (and the sends they make), whatever the client
    replies, [dataLength] equals the total byte length of the [Data] of
    the held records. *)
Theorem dataLength_tracks_records (region deliveryStream dataKeys timeKey
    timeFmt logKey replaceDots : string) (pluginID : Z)
    (simpleAggregation : bool) (timeoutThreshold : Z)
    (ops : list (@Op LogRecord Time)) :
  proc_all (fun output =>
      dataLength output =
        Z.of_nat (sum_list_with (fun r => length (Data r)) (records output)))
    (runOps (NewOutputPlugin region deliveryStream dataKeys timeKey timeFmt
               logKey replaceDots pluginID simpleAggregation timeoutThreshold)
            ops).
Proof. apply runOps_consistent. done. Qed.

End Accounting.

(* ------------------------------------------------------------------ *)
(** ** Encoding and [AddRecord] *)

Section Adding.
Context {LogRecord Time : Type} `{!RecordCodec LogRecord Time}.

Lemma processRecord_fits (output : OutputPlugin) (record : LogRecord) (d : bytes) :
  encodeRecord (dataKeys output) (replaceDots output) (logKey output) record = Some d ->
  len (d ++ [x0a]) <= maximumRecordSize ->
  processRecord output record = inr (d ++ [x0a]).
Proof.
  intros Henc Hle. unfold processRecord. rewrite Henc. cbv beta iota zeta.
  destruct (Z.gtb_spec (len (d ++ [x0a])) maximumRecordSize); [lia|done].
Qed.

Lemma processRecord_oversize (output : OutputPlugin) (record : LogRecord) (d : bytes) :
  encodeRecord (dataKeys output) (replaceDots output) (logKey output) record = Some d ->
  maximumRecordSize < len (d ++ [x0a]) ->
  processRecord output record =
    inr (take (Z.to_nat (maximumRecordSize - len truncatedSuffix)) (d ++ [x0a])
         ++ truncatedSuffix).
Proof.
  intros Henc Hgt. unfold processRecord. rewrite Henc. cbv beta iota zeta.
  destruct (Z.gtb_spec (len (d ++ [x0a])) maximumRecordSize); [done|lia].
Qed.

Lemma len_truncatedSuffix : len truncatedSuffix = 14.
Proof. reflexivity. Qed.

(** C6: a record whose encoding plus newline exceeds 1,024,000 bytes is
    stored as exactly 1,024,000 bytes ending in ["[Truncated...]"] (its
    first 1,023,986 bytes, then the marker); a smaller one is stored as
    it is. *)
Theorem processRecord_truncation (output : OutputPlugin) (record : LogRecord)
    (d : bytes) :
  encodeRecord (dataKeys output) (replaceDots output) (logKey output) record = Some d ->
  (maximumRecordSize < len (d ++ [x0a]) ->
     exists out, processRecord output record = inr out /\
       len out = maximumRecordSize /\
       out = take (Z.to_nat 1023986) (d ++ [x0a]) ++ truncatedSuffix) /\
  (len (d ++ [x0a]) <= maximumRecordSize ->
     processRecord output record = inr (d ++ [x0a])).
Proof.
  intros Henc. split; [intros Hgt|intros Hle; by apply processRecord_fits].
  rewrite (processRecord_oversize _ _ _ Henc Hgt), len_truncatedSuffix.
  eexists; split; [reflexivity|]. split.
  - pose proof len_truncatedSuffix as Hs. unfold len, maximumRecordSize in *.
    rewrite length_app, length_take. lia.
  - by replace (maximumRecordSize - 14) with 1023986
      by (unfold maximumRecordSize; lia).
Qed.

Lemma appendData_records (output : OutputPlugin) (data : bytes) :
  records (appendData output data) =
    if simpleAggregation output && bool_decide (0 < length (records output))%nat
       && (len (Data (lastRecord (records output))) + len data <=? maximumRecordSize)
    then <[ (length (records output) - 1)%nat :=
              mkRecord (Data (lastRecord (records output)) ++ data) ]> (records output)
    else records output ++ [mkRecord data].
Proof. reflexivity. Qed.

(** C7: once the record is encoded as [data] and any size-triggered send
    has answered [FLB_OK], [AddRecord] coalesces [data] onto the last held
    record when aggregation is on, the batch is non-empty and the merged
    record stays within 1,024,000 bytes; otherwise it appends a new
    entry. *)
Theorem AddRecord_coalesces_or_appends (output output1 : OutputPlugin)
    (record record' : LogRecord) (ts : Time) (now : Z) (data : bytes)
    (replies rest : list PutResult) :
  stampRecord output record ts = Some record' ->
  processRecord output record' = inr data ->
  ( ((len (records output) =? maximumRecordsPerPut)
     || (dataLength output + len data >? maximumPutRecordBatchSize)) = false
    /\ output1 = output /\ rest = replies
  \/ ((len (records output) =? maximumRecordsPerPut)
     || (dataLength output + len data >? maximumPutRecordBatchSize)) = true
    /\ exists e, interp replies (sendCurrentBatch now output) =
                 Done (output1, FLB_OK, e) rest ) ->
  exists output',
    interp replies (AddRecord output record ts now) = Done (output', FLB_OK) rest /\
    dataLength output' = dataLength output1 + len data /\
    (forall init lastRec,
       simpleAggregation output1 = true ->
       records output1 = init ++ [lastRec] ->
       len (Data lastRec) + len data <= maximumRecordSize ->
       records output' = init ++ [mkRecord (Data lastRec ++ data)]) /\
    (simpleAggregation output1 = false \/ records output1 = [] \/
     (exists init lastRec, records output1 = init ++ [lastRec] /\
        maximumRecordSize < len (Data lastRec) + len data) ->
     records output' = records output1 ++ [mkRecord data]).
Proof.
  intros Hst Hpr Hcase. exists (appendData output1 data). split.
  { unfold AddRecord. rewrite Hst, Hpr. cbv beta iota zeta.
    destruct Hcase as [(Htr & -> & ->)|(Htr & e & Hsend)]; rewrite Htr; [done|].
    rewrite interp_bind, Hsend. done. }
  split; [done|]. rewrite appendData_records. split.
  - intros init lastRec Hagg Hrecs Hfit.
    rewrite Hagg, Hrecs, lastRecord_app, insert_last.
    rewrite length_app. cbn.
    rewrite bool_decide_eq_true_2 by lia.
    by rewrite (proj2 (Z.leb_le _ _) Hfit).
  - intros [Hagg|[Hnil|(init & lastRec & Hrecs & Hbig)]].
    + by rewrite Hagg; cbn.
    + rewrite Hnil, bool_decide_eq_false_2 by (cbn; lia).
      by rewrite andb_false_r.
    + rewrite Hrecs, lastRecord_app.
      rewrite (proj2 (Z.leb_gt _ _) Hbig), andb_false_r. done.
Qed.

(** C9: when the size/count check triggers a send and the send answers
    anything but [FLB_OK], [AddRecord] returns that code at once, with
    the batch as the send left it and the new record not added. *)
Theorem AddRecord_send_failure_drops_record (output output' : OutputPlugin)
    (record record' : LogRecord) (ts : Time) (now : Z) (data : bytes)
    (replies rest : list PutResult) (rc : Z) (e : option string) :
  stampRecord output record ts = Some record' ->
  processRecord output record' = inr data ->
  ((len (records output) =? maximumRecordsPerPut)
   || (dataLength output + len data >? maximumPutRecordBatchSize)) = true ->
  interp replies (sendCurrentBatch now output) = Done (output', rc, e) rest ->
  rc <> FLB_OK ->
  interp replies (AddRecord output record ts now) = Done (output', rc) rest.
Proof.
  intros Hst Hpr Htr Hsend Hrc. unfold AddRecord. rewrite Hst, Hpr.
  cbv beta iota zeta. rewrite Htr, interp_bind, Hsend. cbn.
  by rewrite (proj2 (Z.eqb_neq _ _) Hrc).
Qed.

(** C10: with a time key configured, a timestamp that fails to format
    makes [AddRecord] return [FLB_ERROR] with the plugin unchanged. *)
Theorem AddRecord_timestamp_error (output : OutputPlugin) (record : LogRecord)
    (ts : Time) (now : Z) :
  timeKey output <> ""%string ->
  strftimeFormat (fmtStrftime output) ts = None ->
  AddRecord output record ts now = Ret (output, FLB_ERROR).
Proof.
  intros Hkey Hfmt. unfold AddRecord, stampRecord.
  by rewrite (proj2 (String.eqb_neq _ _) Hkey), Hfmt.
Qed.

End Adding.

(* ------------------------------------------------------------------ *)
(** ** A request over the batch size limit *)


Lemma len_big_nl (n : N) (b : byte) : len (bigPayload n ++ [b]) = Z.of_N n + 1.
Proof.
  unfold len, bigPayload. rewrite length_app, (proj2_sig (bigPayload_exists n)).
  cbn. lia.
Qed.

Lemma length_big_nl (n : N) (b : byte) :
  Z.of_nat (length (bigPayload n ++ [b])) = Z.of_N n + 1.
Proof. apply len_big_nl. Qed.

Lemma big_stamp (s : OutputPlugin) (r : BigRecord) (ts : Z) :
  timeKey s = ""%string -> stampRecord s r ts = Some r.
Proof. intros Hk. unfold stampRecord. by rewrite Hk. Qed.

Lemma big_processRecord (s : OutputPlugin) (n : N) :
  Z.of_N n + 1 <= maximumRecordSize ->
  processRecord s (mkBig n) = inr (bigPayload n ++ [x0a]).
Proof.
  intros Hn. apply processRecord_fits; [reflexivity|].
  by rewrite len_big_nl.
Qed.

Lemma runOps_big_append (s : OutputPlugin) (n : N) (ts now : Z)
    (ops : list (@Op BigRecord Z)) :
  timeKey s = ""%string -> simpleAggregation s = false ->
  Z.of_N n + 1 <= maximumRecordSize ->
  len (records s) <> maximumRecordsPerPut ->
  dataLength s + (Z.of_N n + 1) <= maximumPutRecordBatchSize ->
  runOps s (AddRecordOp (mkBig n) ts now :: ops) =
    runOps (set_records s (records s ++ [mkRecord (bigPayload n ++ [x0a])])
              (dataLength s + (Z.of_N n + 1))) ops.
Proof.
  intros Hk Hagg Hn Hcnt Hsize. cbn [runOps]. unfold AddRecord.
  rewrite big_stamp, big_processRecord by done. cbv beta iota zeta.
  rewrite len_big_nl, (proj2 (Z.eqb_neq _ _) Hcnt).
  destruct (Z.gtb_spec (dataLength s + (Z.of_N n + 1)) maximumPutRecordBatchSize);
    [lia|]. cbn [orb mbind proc_mbind proc_bind].
  unfold appendData. rewrite Hagg. cbn [andb]. by rewrite len_big_nl.
Qed.

Lemma runOps_big_send (s : OutputPlugin) (n : N) (ts now : Z)
    (ops : list (@Op BigRecord Z)) :
  timeKey s = ""%string ->
  Z.of_N n + 1 <= maximumRecordSize ->
  maximumPutRecordBatchSize < dataLength s + (Z.of_N n + 1) ->
  runOps s (AddRecordOp (mkBig n) ts now :: ops) =
    proc_bind
      (proc_bind (sendCurrentBatch now s) (fun '(o, rc, _) =>
         if negb (rc =? FLB_OK) then Ret (o, rc)
         else Ret (appendData o (bigPayload n ++ [x0a]), FLB_OK)))
      (fun '(o, _) => runOps o ops).
Proof.
  intros Hk Hn Hsize. cbn [runOps]. unfold AddRecord.
  rewrite big_stamp, big_processRecord by done. cbv beta iota zeta.
  rewrite len_big_nl.
  destruct (Z.gtb_spec (dataLength s + (Z.of_N n + 1)) maximumPutRecordBatchSize);
    [|lia]. rewrite orb_true_r. reflexivity.
Qed.

(** The same two steps, with the state kept flat: [set_records base rs d]. *)
Lemma runOps_flat_append (base : OutputPlugin) (rs : list FirehoseRecord)
    (d : Z) (n : N) (ts now : Z) (ops : list (@Op BigRecord Z)) :
  timeKey base = ""%string -> simpleAggregation base = false ->
  Z.of_N n + 1 <= maximumRecordSize ->
  len rs <> maximumRecordsPerPut ->
  d + (Z.of_N n + 1) <= maximumPutRecordBatchSize ->
  runOps (set_records base rs d) (AddRecordOp (mkBig n) ts now :: ops) =
    runOps (set_records base (rs ++ [mkRecord (bigPayload n ++ [x0a])])
              (d + (Z.of_N n + 1))) ops.
Proof. intros. by rewrite runOps_big_append. Qed.

Lemma runOps_flat_send (base : OutputPlugin) (rs : list FirehoseRecord)
    (d : Z) (n : N) (ts now : Z) (ops : list (@Op BigRecord Z)) :
  timeKey base = ""%string ->
  Z.of_N n + 1 <= maximumRecordSize ->
  maximumPutRecordBatchSize < d + (Z.of_N n + 1) ->
  runOps (set_records base rs d) (AddRecordOp (mkBig n) ts now :: ops) =
    proc_bind
      (proc_bind (sendCurrentBatch now (set_records base rs d)) (fun '(o, rc, _) =>
         if negb (rc =? FLB_OK) then Ret (o, rc)
         else Ret (appendData o (bigPayload n ++ [x0a]), FLB_OK)))
      (fun '(o, _) => runOps o ops).
Proof. intros. by apply runOps_big_send. Qed.

Ltac big_side :=
  cbn; unfold len, maximumRecordSize, maximumRecordsPerPut,
    maximumPutRecordBatchSize; cbn; (reflexivity || lia).

(** C1 fails: after the partial failure the four failed records
    (4,000,000 bytes) stay, [AddRecord] appends the sixth record without
    checking the limit again, and the flush sends 5,000,000 bytes. *)
Theorem put_request_exceeds_batch_size :
  ~ calls_all putRequestWithinLimits (runOps (demoPlugin "" false) c1Ops).
Proof.
  unfold c1Ops. intros H.
  change (demoPlugin "" false) with (set_records (demoPlugin "" false) [] 0) in H.
  do 5 (rewrite runOps_flat_append in H; [|big_side ..]; cbn [app] in H).
  rewrite runOps_flat_send in H by big_side.
  cbn in H. destruct H as [_ H]. specialize (H c1PartialFailure).
  cbn in H. unfold len in H. cbn in H. rewrite ?length_big_nl in H.
  change (Z.of_nat 5) with 5 in H. cbn in H.
  destruct H as [[_ Hsz] _]. unfold sum_list_with in Hsz.
  cbn [Data] in Hsz. rewrite !Nat2Z.inj_add, !length_big_nl in Hsz.
  unfold maximumPutRecordBatchSize in Hsz. lia.
Qed.

(* ------------------------------------------------------------------ *)
(** ** Client calls, return codes and batch invariants *)

Lemma calls_at_most_mono {A} (p : Proc A) :
  forall n n', (n <= n')%nat -> calls_at_most n p -> calls_at_most n' p.
Proof.
  induction p as [a|req k IH| |]; intros n n' Hle H; cbn in *; try done.
  destruct n as [|n]; [destruct H|]. destruct n' as [|n']; [lia|].
  intros r. apply (IH r n); [lia|apply H].
Qed.

Lemma calls_at_most_bind {A B} (m : Proc A) (f : A -> Proc B) :
  forall n n', calls_at_most n m -> (forall a, calls_at_most n' (f a)) ->
  calls_at_most (n + n') (m ≫= f).
Proof.
  rewrite proc_bind_unfold.
  induction m as [a|req k IH| |]; intros n n' Hm Hf; cbn in *; try done.
  - apply (calls_at_most_mono _ n'); [lia|apply Hf].
  - destruct n as [|n]; [destruct Hm|]. intros r. apply IH; auto.
Qed.

Lemma calls_all_no_call {A} (P : list FirehoseRecord -> Prop) (p : Proc A) :
  calls_at_most 0 p -> calls_all P p.
Proof. by destruct p. Qed.

Lemma calls_all_bind {A B} (P : list FirehoseRecord -> Prop) (m : Proc A)
    (f : A -> Proc B) :
  calls_all P m -> (forall a, calls_all P (f a)) -> calls_all P (m ≫= f).
Proof.
  rewrite proc_bind_unfold.
  induction m as [a|req k IH| |]; intros Hm Hf; cbn in *; try done.
  destruct Hm as [Hreq Hk]. split; [done|]. intros r. apply IH; auto.
Qed.

Lemma guarded_bind {A B} (R : PutResult -> Prop) (Q : list FirehoseRecord -> Prop)
    (P : B -> Prop) (m : Proc A) (f : A -> Proc B) :
  guarded R Q (fun a => guarded R Q P (f a)) m -> guarded R Q P (m ≫= f).
Proof.
  rewrite proc_bind_unfold.
  induction m as [a|req k IH| |]; intros Hm; cbn in *; try done.
  destruct Hm as [Hreq Hk]. split; [done|]. intros r Hr. apply IH; auto.
Qed.

Lemma guarded_impl {A} (R : PutResult -> Prop) (Q : list FirehoseRecord -> Prop)
    (P P' : A -> Prop) (m : Proc A) :
  (forall a, P a -> P' a) -> guarded R Q P m -> guarded R Q P' m.
Proof.
  intros HP. induction m as [a|req k IH| |]; cbn; try done; [auto|].
  intros [Hreq Hk]. split; [done|]. intros r Hr. apply IH; auto.
Qed.

Lemma guarded_no_call {A} (R : PutResult -> Prop) (Q : list FirehoseRecord -> Prop)
    (P : A -> Prop) (m : Proc A) :
  calls_at_most 0 m -> proc_all P m -> guarded R Q P m.
Proof. by destruct m. Qed.

Section Extras.
Context {LogRecord Time : Type} `{!RecordCodec LogRecord Time}.

Lemma collectFailed_no_call (recs : list FirehoseRecord) :
  forall resps i acc, calls_at_most 0 (collectFailed recs i resps acc).
Proof.
  induction resps as [|rr resps IH]; intros i acc; cbn; [done|].
  destruct (ErrorMessage rr); [destruct (recs !! i)|]; cbn; try done;
    destruct (String.eqb _ _); cbn; auto.
Qed.

Lemma processAPIResponse_no_call (now : Z) (response : PutRecordBatchOutput)
    (output : OutputPlugin) :
  calls_at_most 0 (processAPIResponse now response output).
Proof.
  unfold processAPIResponse.
  destruct (_ >? 0); [destruct (_ =? _)|]; cbn; try done.
  apply (calls_at_most_bind _ _ 0 0); [apply collectFailed_no_call|].
  by intros [l|].
Qed.

Lemma sendCurrentBatch_one_call (now : Z) (output : OutputPlugin) :
  calls_at_most 1 (sendCurrentBatch now output).
Proof.
  unfold sendCurrentBatch. destruct (records output); [done|].
  destruct (timer_Check _ _); cbn; [done|].
  intros [code|response]; [done|]. apply processAPIResponse_no_call.
Qed.

(** Each call of [AddRecord] or [Flush] makes at most one
    [PutRecordBatch] call: a sequence of [n] calls makes at most [n]. *)
Theorem runOps_at_most_one_call_per_op (ops : list (@Op LogRecord Time)) :
  forall output, calls_at_most (length ops) (runOps output ops).
Proof.
  induction ops as [|op ops IH]; intros output; cbn; [done|].
  apply (calls_at_most_bind _ _ 1 (length ops)); [|intros [o rc]; apply IH].
  destruct op as [record ts now|now].
  - unfold AddRecord. destruct (stampRecord _ _ _); [|done].
    destruct (processRecord _ _); [done|]. destruct (_ || _); [|done].
    apply (calls_at_most_bind _ _ 1 0); [apply sendCurrentBatch_one_call|].
    intros [[o rc] e]. by destruct (negb _).
  - unfold Flush.
    apply (calls_at_most_bind _ _ 1 0); [apply sendCurrentBatch_one_call|].
    by intros [[o rc] e].
Qed.

Lemma sendCurrentBatch_nonempty (now : Z) (output : OutputPlugin) :
  calls_all (fun req => req <> []) (sendCurrentBatch now output).
Proof.
  unfold sendCurrentBatch. destruct (records output) eqn:E; [done|].
  destruct (timer_Check _ _); cbn; [done|]. split; [done|].
  intros [code|response]; [done|].
  apply calls_all_no_call, processAPIResponse_no_call.
Qed.

(** No [PutRecordBatch] request is ever empty: whatever the plugin's
    state and the replies, every request made by a sequence of
    [AddRecord] and [Flush] calls holds at least one record. *)
Theorem runOps_requests_nonempty (ops : list (@Op LogRecord Time)) :
  forall output, calls_all (fun req => req <> []) (runOps output ops).
Proof.
  induction ops as [|op ops IH]; intros output; cbn; [done|].
  apply calls_all_bind; [|intros [o rc]; apply IH].
  destruct op as [record ts now|now].
  - unfold AddRecord. destruct (stampRecord _ _ _); [|done].
    destruct (processRecord _ _); [done|]. destruct (_ || _); [|done].
    apply calls_all_bind; [apply sendCurrentBatch_nonempty|].
    intros [[o rc] e]. by destruct (negb _).
  - unfold Flush. apply calls_all_bind; [apply sendCurrentBatch_nonempty|].
    by intros [[o rc] e].
Qed.

(** [Flush] on an empty batch makes no client call, returns [FLB_OK] and
    leaves the plugin as it is (even when the watchdog has expired). *)
Theorem Flush_empty_batch (now : Z) (output : OutputPlugin) :
  records output = [] -> Flush now output = Ret (output, FLB_OK).
Proof. intros H. unfold Flush, sendCurrentBatch. by rewrite H. Qed.

(** [Flush] on a non-empty batch (watchdog not expired) sends the whole
    batch in one request; on a transport error it returns [FLB_RETRY]
    and keeps the batch and [dataLength], ready to be sent again. *)
Theorem Flush_transport_error (now : Z) (output : OutputPlugin) :
  records output <> [] -> timer_Check now (timer output) = false ->
  exists k, Flush now output = Call (records output) k /\
    forall code, exists output',
      k (PutErr code) = Ret (output', FLB_RETRY) /\
      records output' = records output /\ dataLength output' = dataLength output.
Proof.
  intros Hne Hchk. unfold Flush, sendCurrentBatch.
  destruct (records output) eqn:E; [done|]. rewrite Hchk.
  eexists; split; [reflexivity|]. intros code.
  eexists; split; [reflexivity|]. cbn. by rewrite E.
Qed.

Lemma processAPIResponse_codes (now : Z) (response : PutRecordBatchOutput)
    (output : OutputPlugin) :
  proc_all (fun '(_, rc, _) => rc = FLB_OK \/ rc = FLB_RETRY)
    (processAPIResponse now response output).
Proof.
  unfold processAPIResponse.
  destruct (_ >? 0); [destruct (_ =? _)|]; cbn; auto.
  apply proc_all_bind_any. intros [l|]; cbn; auto.
Qed.

Lemma sendCurrentBatch_codes (now : Z) (output : OutputPlugin) :
  proc_all (fun '(_, rc, _) => rc = FLB_OK \/ rc = FLB_RETRY)
    (sendCurrentBatch now output).
Proof.
  unfold sendCurrentBatch. destruct (records output); cbn; [auto|].
  destruct (timer_Check _ _); cbn; [done|].
  intros [code|response]; cbn; [auto|apply processAPIResponse_codes].
Qed.

(** [Flush] returns [FLB_OK] or [FLB_RETRY], never [FLB_ERROR]. *)
Theorem Flush_returns_ok_or_retry (now : Z) (output : OutputPlugin) :
  proc_all (fun '(_, rc) => rc = FLB_OK \/ rc = FLB_RETRY) (Flush now output).
Proof.
  unfold Flush. apply proc_all_bind.
  apply (proc_all_impl (fun '(_, rc, _) => rc = FLB_OK \/ rc = FLB_RETRY));
    [|apply sendCurrentBatch_codes].
  by intros [[o rc] e].
Qed.

(** [AddRecord] returns [FLB_OK] or [FLB_RETRY], or [FLB_ERROR] only
    when the timestamp could not be formatted, the plugin then being
    unchanged. *)
Theorem AddRecord_return_codes (output : OutputPlugin) (record : LogRecord)
    (ts : Time) (now : Z) :
  proc_all (fun '(o, rc) => rc = FLB_OK \/ rc = FLB_RETRY \/
              (rc = FLB_ERROR /\ o = output /\ stampRecord output record ts = None))
    (AddRecord output record ts now).
Proof.
  unfold AddRecord. destruct (stampRecord _ _ _) eqn:Hst; cbn; [|by auto].
  destruct (processRecord _ _) as [|data]; cbn; [by auto|].
  destruct (_ || _); cbn; [|by auto].
  apply proc_all_bind.
  apply (proc_all_impl (fun '(_, rc, _) => rc = FLB_OK \/ rc = FLB_RETRY));
    [|apply sendCurrentBatch_codes].
  intros [[o rc] e] Hrc. destruct (negb _); cbn; tauto.
Qed.

(** A record whose encoding fails is dropped: [AddRecord] returns
    [FLB_OK], makes no call and leaves the plugin unchanged. *)
Theorem AddRecord_encode_failure (output : OutputPlugin) (record record' : LogRecord)
    (ts : Time) (now : Z) :
  stampRecord output record ts = Some record' ->
  encodeRecord (dataKeys output) (replaceDots output) (logKey output) record' = None ->
  AddRecord output record ts now = Ret (output, FLB_OK).
Proof.
  intros Hst Henc. unfold AddRecord, processRecord. by rewrite Hst, Henc.
Qed.

Lemma collectFailed_panics (recs : list FirehoseRecord) (rr : PutRecordBatchResponseEntry) :
  forall resps i j acc,
  (length recs <= j + i)%nat ->
  resps !! i = Some rr -> outcomeHasError rr = true ->
  forallb (fun rr => negb (isServiceUnavailable rr)) (take i resps) = true ->
  collectFailed recs j resps acc = Panicked.
Proof.
  induction resps as [|rr0 resps IH]; intros i j acc Hlen Hi Herr Hsu; [done|].
  destruct i as [|i]; cbn in Hi.
  - injection Hi as ->. cbn. unfold outcomeHasError in Herr.
    destruct (ErrorMessage rr); [|done].
    by rewrite (proj2 (lookup_ge_None recs j)) by lia.
  - cbn in Hsu. apply andb_true_iff in Hsu as [Hrr Hsu].
    unfold isServiceUnavailable in Hrr. apply negb_true_iff in Hrr.
    cbn. destruct (ErrorMessage rr0); [destruct (recs !! j)|]; cbn;
      try done; rewrite Hrr; apply (IH i); (done || lia).
Qed.

(** A response that reports an error at an index beyond the records
    sent (before any service-unavailable entry) makes
    [processAPIResponse] panic: [output.records[i]] is out of range. *)
Theorem processAPIResponse_panics_on_extra_entry (now : Z)
    (response : PutRecordBatchOutput) (output : OutputPlugin) (i : nat)
    (rr : PutRecordBatchResponseEntry) :
  0 < Int64Value (FailedPutCount response) ->
  Int64Value (FailedPutCount response) <> len (records output) ->
  (length (records output) <= i)%nat ->
  RequestResponses response !! i = Some rr -> outcomeHasError rr = true ->
  forallb (fun rr => negb (isServiceUnavailable rr))
    (take i (RequestResponses response)) = true ->
  processAPIResponse now response output = Panicked.
Proof.
  intros Hpos Hne Hi Hrr Herr Hsu. unfold processAPIResponse.
  rewrite (proj2 (Z.gtb_lt _ _)) by lia.
  rewrite (proj2 (Z.eqb_neq _ _)) by lia. cbn.
  by rewrite (collectFailed_panics _ rr _ i 0) by (done || lia).
Qed.

(** The invariants below, kept by every call. *)
Lemma runOps_guarded (R : PutResult -> Prop) (Q : list FirehoseRecord -> Prop)
    (Inv : OutputPlugin -> Prop) :
  (forall o record ts now, Inv o ->
     guarded R Q (fun '(o', _) => Inv o') (AddRecord o record ts now)) ->
  (forall o now, Inv o -> guarded R Q (fun '(o', _) => Inv o') (Flush now o)) ->
  forall (ops : list (@Op LogRecord Time)) o, Inv o -> guarded R Q Inv (runOps o ops).
Proof.
  intros Hadd Hflush ops. induction ops as [|op ops IH]; intros o Ho; cbn; [done|].
  apply guarded_bind.
  apply (guarded_impl _ _ (fun '(o', _) => Inv o')).
  - intros [o' rc] H. by apply IH.
  - destruct op; [apply Hadd|apply Hflush]; done.
Qed.

Lemma AddRecord_guarded (R : PutResult -> Prop) (Q : list FirehoseRecord -> Prop)
    (Inv : OutputPlugin -> Prop) (o : OutputPlugin) (record : LogRecord)
    (ts : Time) (now : Z) :
  Inv o ->
  (forall record' data, processRecord o record' = inr data ->
   (((len (records o) =? maximumRecordsPerPut)
     || (dataLength o + len data >? maximumPutRecordBatchSize)) = false ->
    Inv (appendData o data)) /\
   guarded R Q (fun '(o', rc, _) =>
       if negb (rc =? FLB_OK) then Inv o' else Inv (appendData o' data))
     (sendCurrentBatch now o)) ->
  guarded R Q (fun '(o', _) => Inv o') (AddRecord o record ts now).
Proof.
  intros Ho H. unfold AddRecord.
  destruct (stampRecord _ _ _) as [record'|] eqn:Hst; cbn; [|done].
  destruct (processRecord _ _) as [|data] eqn:Hpr; cbn; [done|].
  destruct (H record' data Hpr) as [Hno Hsend].
  destruct (_ || _) eqn:Htr; cbn; [|by apply Hno].
  apply guarded_bind. refine (guarded_impl _ _ _ _ _ _ Hsend).
  intros [[o' rc] e] Hi. by destruct (negb _).
Qed.

Lemma collectFailed_Forall (P : FirehoseRecord -> Prop) (recs : list FirehoseRecord) :
  Forall P recs ->
  forall resps i acc, Forall P acc ->
  proc_all (fun res => match res with Some l => Forall P l | None => True end)
    (collectFailed recs i resps acc).
Proof.
  intros Hrecs. induction resps as [|rr resps IH]; intros i acc Hacc; cbn; [done|].
  destruct (ErrorMessage rr); [destruct (recs !! i) as [r|] eqn:Hi|]; cbn; try done;
    destruct (String.eqb _ _); cbn; try done; apply IH; try done.
  apply Forall_app; split; [done|]. apply Forall_singleton.
  exact (Forall_lookup_1 _ _ _ _ Hrecs Hi).
Qed.

Lemma processAPIResponse_Forall (P : FirehoseRecord -> Prop) (now : Z)
    (response : PutRecordBatchOutput) (output : OutputPlugin) :
  Forall P (records output) ->
  proc_all (fun '(o', _, _) => Forall P (records o'))
    (processAPIResponse now response output).
Proof.
  intros H. unfold processAPIResponse.
  destruct (_ >? 0); [destruct (_ =? _)|]; cbn; [done| |constructor].
  apply proc_all_bind.
  apply (proc_all_impl (fun res => match res with Some l => Forall P l | None => True end));
    [|by apply collectFailed_Forall].
  by intros [l|] Hl.
Qed.

Lemma sendCurrentBatch_Forall (R : PutResult -> Prop) (P : FirehoseRecord -> Prop)
    (now : Z) (output : OutputPlugin) :
  Forall P (records output) ->
  guarded R (Forall P) (fun '(o', _, _) => Forall P (records o'))
    (sendCurrentBatch now output).
Proof.
  intros H. unfold sendCurrentBatch. revert H.
  destruct (records output) eqn:E; intros H; cbn; [by rewrite E|].
  destruct (timer_Check _ _); cbn; [done|]. split; [done|].
  intros [code|response] _; cbn; [by rewrite E|].
  apply guarded_no_call; [apply processAPIResponse_no_call|].
  apply processAPIResponse_Forall. by rewrite E.
Qed.

Lemma processRecord_within_limit (o : OutputPlugin) (record : LogRecord) (data : bytes) :
  processRecord o record = inr data -> len data <= maximumRecordSize.
Proof.
  unfold processRecord. destruct (encodeRecord _ _ _ _) as [d|]; [|done].
  pose proof len_truncatedSuffix as Hs.
  destruct (len (d ++ [x0a]) >? maximumRecordSize) eqn:E; intros H; injection H as <-.
  - apply Z.gtb_lt in E. unfold len, maximumRecordSize in *.
    rewrite length_app, length_take. lia.
  - rewrite Z.gtb_ltb in E. by apply Z.ltb_ge in E.
Qed.

Lemma appendData_fits (o : OutputPlugin) (data : bytes) :
  Forall recordFits (records o) -> len data <= maximumRecordSize ->
  Forall recordFits (records (appendData o data)).
Proof.
  intros H Hd. rewrite appendData_records.
  destruct (_ && _ && _) eqn:E.
  - apply andb_true_iff in E as [_ E]. apply Z.leb_le in E.
    apply Forall_insert; [done|]. unfold recordFits. cbn.
    unfold len in *. rewrite length_app. lia.
  - apply Forall_app; split; [done|]. by apply Forall_singleton.
Qed.

(** Every record the plugin holds, and every record of every
    [PutRecordBatch] request, is at most 1,024,000 bytes (the Firehose
    per-record limit), whatever the replies, from a freshly built plugin
    through any sequence of [AddRecord] and [Flush] calls. *)
Theorem runOps_records_within_limit (region deliveryStream dataKeys timeKey
    timeFmt logKey replaceDots : string) (pluginID : Z)
    (simpleAggregation : bool) (timeoutThreshold : Z)
    (ops : list (@Op LogRecord Time)) :
  guarded (fun _ => True) (Forall recordFits) (fun o => Forall recordFits (records o))
    (runOps (NewOutputPlugin region deliveryStream dataKeys timeKey timeFmt
               logKey replaceDots pluginID simpleAggregation timeoutThreshold)
            ops).
Proof.
  apply runOps_guarded; [| |cbn; constructor].
  - intros o record ts now Ho. apply AddRecord_guarded; [done|].
    intros record' data Hpr.
    pose proof (processRecord_within_limit _ _ _ Hpr) as Hd.
    split; [intros _; by apply appendData_fits|].
    refine (guarded_impl _ _ _ _ _ _ (sendCurrentBatch_Forall _ _ now o Ho)).
    intros [[o' rc] e] H'. destruct (negb _); [done|by apply appendData_fits].
  - intros o now Ho. unfold Flush. apply guarded_bind.
    refine (guarded_impl _ _ _ _ _ _ (sendCurrentBatch_Forall _ _ now o Ho)).
    by intros [[o' rc] e].
Qed.

Lemma collectFailed_count (recs : list FirehoseRecord) :
  forall resps i acc,
  proc_all (fun res => match res with
      | Some l =>
          length l = (length acc + length (List.filter outcomeHasError resps))%nat /\
          (length (List.filter outcomeHasError resps) <= length recs - i)%nat
      | None => True
      end)
    (collectFailed recs i resps acc).
Proof.
  induction resps as [|rr resps IH]; intros i acc; [cbn; lia|].
  destruct (ErrorMessage rr) as [msg|] eqn:Em.
  - assert (Hf : List.filter outcomeHasError (rr :: resps) =
                 rr :: List.filter outcomeHasError resps)
      by (cbn; unfold outcomeHasError; by rewrite Em).
    rewrite Hf. cbn. rewrite Em.
    destruct (recs !! i) as [r|] eqn:Hi; cbn; [|done].
    apply lookup_lt_Some in Hi.
    destruct (String.eqb _ _); cbn; [done|].
    refine (proc_all_impl _ _ _ _ (IH (S i) (acc ++ [r]))).
    intros [l|]; [|done]. rewrite length_app. cbn [length]. lia.
  - assert (Hf : List.filter outcomeHasError (rr :: resps) =
                 List.filter outcomeHasError resps)
      by (cbn; unfold outcomeHasError; by rewrite Em).
    rewrite Hf. cbn. rewrite Em. cbn.
    destruct (String.eqb _ _); cbn; [done|].
    refine (proc_all_impl _ _ _ _ (IH (S i) acc)).
    intros [l|]; [|done]. lia.
Qed.

Lemma processAPIResponse_count (now : Z) (response : PutRecordBatchOutput)
    (output : OutputPlugin) :
  consistentReply (PutOk response) ->
  proc_all (fun '(o', rc, _) =>
      (length (records o') <= length (records output))%nat /\
      (rc = FLB_OK -> records o' = [] \/
                      (length (records o') < length (records output))%nat))
    (processAPIResponse now response output).
Proof.
  intros Hc. cbn in Hc. unfold processAPIResponse.
  destruct (_ >? 0) eqn:Hpos; [destruct (_ =? _) eqn:Heq|]; cbn.
  - split; [lia|unfold FLB_RETRY, FLB_OK; lia].
  - apply proc_all_bind.
    refine (proc_all_impl _ _ _ _ (collectFailed_count (records output) _ 0 [])).
    intros [l|] H; cbn; [destruct H as [Hl Hle]|split; [lia|unfold FLB_RETRY, FLB_OK; lia]].
    apply Z.eqb_neq in Heq. unfold len in Hc, Heq. cbn in Hl.
    split; [lia|intros _; right; lia].
  - split; [lia|by left].
Qed.

Lemma sendCurrentBatch_count (now : Z) (output : OutputPlugin) :
  len (records output) <= maximumRecordsPerPut ->
  guarded consistentReply (fun req => len req <= maximumRecordsPerPut)
    (fun '(o', rc, _) =>
       (length (records o') <= length (records output))%nat /\
       (rc = FLB_OK -> records o' = [] \/
                       (length (records o') < length (records output))%nat))
    (sendCurrentBatch now output).
Proof.
  intros H. unfold sendCurrentBatch. revert H.
  destruct (records output) eqn:E; intros H; cbn; [rewrite E; cbn; split; [lia|by left]|].
  destruct (timer_Check _ _); cbn; [done|]. split; [done|].
  intros [code|response] Hc; cbn; [rewrite E; cbn; split; [lia|unfold FLB_RETRY, FLB_OK; lia]|].
  apply guarded_no_call; [apply processAPIResponse_no_call|].
  pose proof (processAPIResponse_count now response output Hc) as Hp.
  rewrite E in Hp. exact Hp.
Qed.

Lemma appendData_length (o : OutputPlugin) (data : bytes) :
  (length (records (appendData o data)) <= S (length (records o)))%nat.
Proof.
  rewrite appendData_records. destruct (_ && _ && _).
  - rewrite length_insert. lia.
  - rewrite length_app. cbn. lia.
Qed.

(** Whenever every [PutRecordBatch] reply is self-consistent (its
    [FailedPutCount] equals the number of entries that carry an error
    message), every request the plugin issues holds at most 500 records and
    the plugin never holds more than 500, from a freshly built plugin
    through any sequence of [AddRecord] and [Flush] calls. *)
Theorem runOps_request_count_within_limit (region deliveryStream dataKeys
    timeKey timeFmt logKey replaceDots : string) (pluginID : Z)
    (simpleAggregation : bool) (timeoutThreshold : Z)
    (ops : list (@Op LogRecord Time)) :
  guarded consistentReply (fun req => len req <= maximumRecordsPerPut)
    (fun o => len (records o) <= maximumRecordsPerPut)
    (runOps (NewOutputPlugin region deliveryStream dataKeys timeKey timeFmt
               logKey replaceDots pluginID simpleAggregation timeoutThreshold)
            ops).
Proof.
  apply runOps_guarded; [| |unfold len, maximumRecordsPerPut; cbn; lia].
  - intros o record ts now Ho. apply AddRecord_guarded; [done|].
    intros record' data Hpr. split.
    + intros Htr. apply orb_false_iff in Htr as [Hcnt _]. apply Z.eqb_neq in Hcnt.
      pose proof (appendData_length o data).
      unfold len, maximumRecordsPerPut in *. lia.
    + refine (guarded_impl _ _ _ _ _ _ (sendCurrentBatch_count now o Ho)).
      intros [[o' rc] e] [Hle Hok]. destruct (negb (rc =? FLB_OK)) eqn:Hrc.
      * unfold len in *. lia.
      * apply negb_false_iff, Z.eqb_eq in Hrc.
        pose proof (appendData_length o' data).
        destruct (Hok Hrc) as [Hnil|Hlt].
        -- rewrite Hnil in *. unfold len, maximumRecordsPerPut in *. cbn in *. lia.
        -- unfold len, maximumRecordsPerPut in *. lia.
  - intros o now Ho. unfold Flush. apply guarded_bind.
    refine (guarded_impl _ _ _ _ _ _ (sendCurrentBatch_count now o Ho)).
    intros [[o' rc] e] [Hle _]. cbn. unfold len in *. lia.
Qed.

Lemma processAPIResponse_keeps_failing (now : Z) (response : PutRecordBatchOutput)
    (output : OutputPlugin) :
  0 < Int64Value (FailedPutCount response) ->
  failingSince (timer output) <> None ->
  proc_all (fun '(o', _, _) => failingSince (timer o') <> None)
    (processAPIResponse now response output).
Proof.
  intros Hpos H. unfold processAPIResponse.
  rewrite (proj2 (Z.gtb_lt _ _)) by lia.
  destruct (_ =? _); cbn.
  - unfold timer_Start. destruct (failingSince (timer output)) eqn:F; cbn; congruence.
  - apply proc_all_bind_any. by intros [l|].
Qed.

Lemma sendCurrentBatch_keeps_failing (now : Z) (output : OutputPlugin) :
  failingSince (timer output) <> None ->
  guarded notFullSuccess (fun _ => True)
    (fun '(o', _, _) => failingSince (timer o') <> None)
    (sendCurrentBatch now output).
Proof.
  intros H. unfold sendCurrentBatch.
  destruct (records output); cbn; [done|].
  destruct (timer_Check _ _); cbn; [done|]. split; [done|].
  intros [code|response] Hr; cbn.
  - unfold timer_Start. destruct (failingSince (timer output)) eqn:F; cbn; congruence.
  - apply guarded_no_call; [apply processAPIResponse_no_call|].
    by apply processAPIResponse_keeps_failing.
Qed.

(** Once the failure watchdog is running ([failingSince] is set), no
    sequence of [AddRecord] and [Flush] calls stops it as long as no
    [PutRecordBatch] call fully succeeds: transport errors, partial
    failures and total failures all leave it running. *)
Theorem runOps_watchdog_stays_armed (ops : list (@Op LogRecord Time))
    (output : OutputPlugin) :
  failingSince (timer output) <> None ->
  guarded notFullSuccess (fun _ => True) (fun o => failingSince (timer o) <> None)
    (runOps output ops).
Proof.
  intros H. revert output H. apply runOps_guarded.
  - intros o record ts now Ho. apply AddRecord_guarded; [done|].
    intros record' data _. split; [done|].
    refine (guarded_impl _ _ _ _ _ _ (sendCurrentBatch_keeps_failing now o Ho)).
    intros [[o' rc] e] H'. by destruct (negb _).
  - intros o now Ho. unfold Flush. apply guarded_bind.
    refine (guarded_impl _ _ _ _ _ _ (sendCurrentBatch_keeps_failing now o Ho)).
    by intros [[o' rc] e].
Qed.

End Extras.

(** ** Key replacement *)

Lemma MapKey_eqb_eq (a b : MapKey) : MapKey_eqb a b = true <-> a = b.
Proof.
  destruct a, b; cbn; rewrite ?String.eqb_eq, ?Z.eqb_eq; split; congruence.
Qed.

Lemma map_lookup_None_In (k : MapKey) (m : list (MapKey * MapValue)) :
  map_lookup k m = None -> ~ In k (map fst m).
Proof.
  unfold map_lookup. induction m as [|[k' v'] m IH]; cbn; [auto|].
  destruct (MapKey_eqb k' k) eqn:E; cbn; [discriminate|].
  intros H [<-|Hin]; [|by apply IH].
  assert (MapKey_eqb k' k' = true) by (by apply MapKey_eqb_eq). congruence.
Qed.

Lemma map_lookup_Some_In (k : MapKey) (m : list (MapKey * MapValue)) (v : MapValue) :
  map_lookup k m = Some v -> In k (map fst m).
Proof.
  unfold map_lookup. induction m as [|[k' v'] m IH]; cbn; [discriminate|].
  destruct (MapKey_eqb k' k) eqn:E; cbn.
  - intros _. left. by apply MapKey_eqb_eq.
  - intros H. right. by apply IH.
Qed.

Lemma map_delete_keys (k : MapKey) (m : list (MapKey * MapValue)) (x : MapKey) :
  In x (map fst (map_delete k m)) <-> In x (map fst m) /\ x <> k.
Proof.
  unfold map_delete. induction m as [|[k' v'] m IH]; cbn; [tauto|].
  destruct (MapKey_eqb k' k) eqn:E; cbn.
  - apply MapKey_eqb_eq in E as ->. rewrite IH. intuition congruence.
  - rewrite IH. split.
    + intros [<-|[Hin Hne]]; [|tauto]. split; [by left|].
      intros ->. assert (MapKey_eqb k k = true) by (by apply MapKey_eqb_eq). congruence.
    + intros [[<-|Hin] Hne]; tauto.
Qed.


Lemma hasDot_app (s t : string) : hasDot (s ++ t)%string = hasDot s || hasDot t.
Proof. induction s as [|c s IH]; cbn; [done|]. by rewrite IH, orb_assoc. Qed.

Lemma hasDot_replaceAllDots (s r : string) :
  hasDot r = false -> hasDot (replaceAllDots s r) = false.
Proof.
  intros Hr. induction s as [|c s IH]; cbn; [done|].
  destruct (Ascii.eqb c "."%char) eqn:E; cbn.
  - by rewrite hasDot_app, Hr, IH.
  - by rewrite E, IH.
Qed.

Lemma replaceAllDots_id (s r : string) : hasDot s = false -> replaceAllDots s r = s.
Proof.
  induction s as [|c s IH]; cbn; [done|]. intros H.
  apply orb_false_iff in H as [Hc Hs]. by rewrite Hc, IH.
Qed.

Lemma renameKey_idem (r : string) (k : MapKey) :
  hasDot r = false -> renameKey r (renameKey r k) = renameKey r k.
Proof.
  intros Hr. destruct k; cbn; [|done].
  rewrite replaceAllDots_id; [done|]. by apply hasDot_replaceAllDots.
Qed.


Lemma replaceDotsEntries_sound (f : MapValue -> option MapValue) (r : string) :
  (forall v v', f v = Some v' -> replaceDotsValue r v v') ->
  forall pending m m', replaceDotsEntries f r m pending = Some m' ->
  replaceDotsLoop r m pending m'.
Proof.
  intros Hf. induction pending as [|k ks IH]; intros m m' H; cbn in H.
  - injection H as <-. constructor.
  - destruct (map_lookup k m) as [v|] eqn:Hk.
    + destruct (f v) as [v'|] eqn:Hv; cbn in H; [|discriminate].
      apply (rdl_visit r m [] k ks v v' false m'); [done|by apply Hf|done|].
      cbn. rewrite app_nil_r. by apply IH.
    + apply (rdl_skip r m [] k ks m'); [done|]. by apply IH.
Qed.

(** Every result of the executable [replaceDotsFuel] (keys in list order)
    is a run of [replaceDots]. *)
Lemma replaceDotsFuel_sound (r : string) :
  forall fuel v v', replaceDotsFuel fuel r v = Some v' -> replaceDotsValue r v v'.
Proof.
  induction fuel as [|fuel IH]; intros v v' H; cbn in H; [discriminate|].
  destruct v as [m|n].
  - destruct (replaceDotsEntries _ r m (map fst m)) as [m'|] eqn:E;
      cbn in H; [|discriminate].
    injection H as <-. constructor.
    eapply replaceDotsEntries_sound; [|exact E]. exact IH.
  - injection H as <-. constructor.
Qed.


Lemma replaceDotsLoop_keys (r : string) (K : list MapKey) :
  hasDot r = false ->
  forall m pending m', replaceDotsLoop r m pending m' ->
  (forall x, In x (map fst m) ->
     (exists y, In y K /\ x = renameKey r y) \/ (In x pending /\ In x K)) ->
  (forall y, In y K ->
     In (renameKey r y) (map fst m) \/ (In y pending /\ In y (map fst m))) ->
  (forall x, In x (map fst m') -> exists y, In y K /\ x = renameKey r y) /\
  (forall y, In y K -> In (renameKey r y) (map fst m')).
Proof.
  intros Hr m pending m' Hl.
  induction Hl as [m|m p1 k p2 m' Hk Hl IH|m p1 k p2 v v' again m' Hk Hv Hagain Hl IH];
    intros HA HB.
  - split.
    + intros x Hx. by destruct (HA x Hx) as [H|[[] _]].
    + intros y Hy. by destruct (HB y Hy) as [H|[[] _]].
  - apply IH.
    + intros x Hx. destruct (HA x Hx) as [H|[Hp HK]]; [by left|right; split; [|done]].
      apply in_app_iff in Hp as [Hp|[<-|Hp]];
        [by apply in_app_iff; left| |by apply in_app_iff; right].
      exfalso; exact (map_lookup_None_In _ _ Hk Hx).
    + intros y Hy. destruct (HB y Hy) as [H|[Hp Hm]]; [by left|right; split; [|done]].
      apply in_app_iff in Hp as [Hp|[<-|Hp]];
        [by apply in_app_iff; left| |by apply in_app_iff; right].
      exfalso; exact (map_lookup_None_In _ _ Hk Hm).
  - pose proof (map_lookup_Some_In _ _ _ Hk) as Hkm. apply IH.
    + intros x Hx. destruct Hx as [<-|Hx].
      * left. destruct (HA k Hkm) as [(y & Hy & ->)|[_ HK]].
        -- exists y. split; [done|]. by rewrite renameKey_idem.
        -- by exists k.
      * apply map_delete_keys in Hx as [Hx _].
        apply map_delete_keys in Hx as [Hx Hne].
        destruct (HA x Hx) as [H|[Hp HK]]; [by left|right; split; [|done]].
        apply in_app_iff in Hp as [Hp|[Heq|Hp]].
        -- apply in_app_iff. by left.
        -- congruence.
        -- apply in_app_iff. right. apply in_app_iff. by left.
    + intros y Hy.
      destruct (MapKey_eq_dec (renameKey r y) (renameKey r k)) as [Heq|Hne].
      { left. left. by rewrite Heq. }
      assert (Hyk : y <> k) by (intros ->; congruence).
      destruct (HB y Hy) as [H|[Hp Hm]].
      * left. right. apply map_delete_keys. split; [apply map_delete_keys; split|done].
        -- done.
        -- intros Hk'. apply Hne. by rewrite <- Hk', renameKey_idem.
      * right. split.
        -- apply in_app_iff in Hp as [Hp|[Heq|Hp]].
           ++ apply in_app_iff. by left.
           ++ congruence.
           ++ apply in_app_iff. right. apply in_app_iff. by left.
        -- destruct (MapKey_eq_dec (renameKey r k) y) as [Heq|Hne'].
           ++ by left.
           ++ right. apply map_delete_keys. split; [by apply map_delete_keys|].
              intros ->. done.
Qed.

(** When the replacement contains no dot, the keys of the map
    [replaceDots] returns are exactly the input's keys with every dot of a
    string key replaced: no key is lost and none is added, in whatever
    order the map is ranged over (keys that become equal merge into one). *)
Theorem replaceDots_renames_keys (r : string) (m m' : list (MapKey * MapValue)) :
  hasDot r = false -> replaceDotsValue r (VMap m) (VMap m') ->
  forall x, In x (map fst m') <-> exists y, In y (map fst m) /\ x = renameKey r y.
Proof.
  intros Hr Hv. inversion Hv as [m0 m0' Hl|]; subst.
  destruct (replaceDotsLoop_keys r (map fst m) Hr _ _ _ Hl) as [H1 H2].
  - intros x Hx. by right.
  - intros y Hy. by right.
  - intros x. split; [apply H1|]. intros (y & Hy & ->). by apply H2.
Qed.
(* ------------------------------------------------------------------ *)
(** ** The theorems at concrete inputs *)

Ltac concrete := first [ reflexivity | discriminate | (vm_compute; lia)
  | (vm_compute; discriminate) | (vm_compute; split; reflexivity)
  | (let Hx := fresh in intros Hx; vm_compute in Hx; discriminate Hx) ].

Lemma processAPIResponse_partial_keeps_failed_witness :
  0 < Int64Value (FailedPutCount partialResponse) < len (records threeHeld) /\
  exists output',
    processAPIResponse 0 partialResponse threeHeld = Ret (output', FLB_OK, None) /\
    records output' = erroredRecords (records threeHeld)
                        (RequestResponses partialResponse) /\
    dataLength output' =
      Z.of_nat (sum_list_with (fun r => length (Data r))
        (erroredRecords (records threeHeld) (RequestResponses partialResponse))).
Proof.
  split; [concrete|].
  apply processAPIResponse_partial_keeps_failed; concrete.
Defined.

Lemma processAPIResponse_overload_keeps_batch_witness :
  existsb isServiceUnavailable (RequestResponses overloadResponse) = true /\
  processAPIResponse 0 overloadResponse threeHeld = Ret (threeHeld, FLB_RETRY, None).
Proof.
  split; [concrete|].
  apply processAPIResponse_overload_keeps_batch; concrete.
Defined.

Lemma processAPIResponse_total_failure_witness :
  Int64Value (FailedPutCount totalFailureResponse) = len (records threeHeld) /\
  exists output' msg,
    processAPIResponse 5 totalFailureResponse threeHeld =
      Ret (output', FLB_RETRY, Some msg) /\
    records output' = records threeHeld /\
    dataLength output' = dataLength threeHeld /\
    timer output' = timer_Start 5 (timer threeHeld) /\
    failingSince (timer output') <> None.
Proof.
  split; [concrete|].
  apply processAPIResponse_total_failure; concrete.
Defined.

Lemma processAPIResponse_full_success_witness :
  Int64Value (FailedPutCount successResponse) = 0 /\
  exists output',
    processAPIResponse 0 successResponse threeHeld = Ret (output', FLB_OK, None) /\
    failingSince (timer output') = None /\
    records output' = [] /\
    dataLength output' = 0.
Proof.
  split; [concrete|].
  apply processAPIResponse_full_success; concrete.
Defined.

Lemma processRecord_truncation_witness :
  encodeRecord (dataKeys threeHeld) (replaceDots threeHeld) (logKey threeHeld) 5%N
    = Some (payload 5) /\
  (maximumRecordSize < len (payload 5 ++ [x0a]) ->
     exists out, processRecord threeHeld 5%N = inr out /\
       len out = maximumRecordSize /\
       out = take (Z.to_nat 1023986) (payload 5 ++ [x0a]) ++ truncatedSuffix) /\
  (len (payload 5 ++ [x0a]) <= maximumRecordSize ->
     processRecord threeHeld 5%N = inr (payload 5 ++ [x0a])).
Proof.
  split; [concrete|].
  apply processRecord_truncation; concrete.
Defined.

Lemma AddRecord_coalesces_or_appends_witness :
  processRecord oneHeldAggregating 4%N = inr (payload 4 ++ [x0a]) /\
  exists output',
    interp [] (AddRecord oneHeldAggregating 4%N 0 0) = Done (output', FLB_OK) [] /\
    dataLength output' = dataLength oneHeldAggregating + len (payload 4 ++ [x0a]) /\
    (forall init lastRec,
       simpleAggregation oneHeldAggregating = true ->
       records oneHeldAggregating = init ++ [lastRec] ->
       len (Data lastRec) + len (payload 4 ++ [x0a]) <= maximumRecordSize ->
       records output' = init ++ [mkRecord (Data lastRec ++ payload 4 ++ [x0a])]) /\
    (simpleAggregation oneHeldAggregating = false \/ records oneHeldAggregating = [] \/
     (exists init lastRec, records oneHeldAggregating = init ++ [lastRec] /\
        maximumRecordSize < len (Data lastRec) + len (payload 4 ++ [x0a])) ->
     records output' = records oneHeldAggregating ++ [mkRecord (payload 4 ++ [x0a])]).
Proof.
  split; [concrete|].
  apply (AddRecord_coalesces_or_appends oneHeldAggregating oneHeldAggregating
           4%N 4%N 0 0 (payload 4 ++ [x0a]) [] []); [concrete|concrete|].
  left. split; [concrete|]. split; reflexivity.
Defined.

Lemma AddRecord_send_failure_drops_record_witness :
  ((len (records fullHeld) =? maximumRecordsPerPut)
   || (dataLength fullHeld + len (payload 7 ++ [x0a]) >? maximumPutRecordBatchSize))
    = true /\
  interp [PutErr ErrCodeServiceUnavailableException] (AddRecord fullHeld 7%N 0 3) =
    Done (set_timer fullHeld (timer_Start 3 (timer fullHeld)), FLB_RETRY) [].
Proof.
  split; [concrete|].
  apply (AddRecord_send_failure_drops_record fullHeld
           (set_timer fullHeld (timer_Start 3 (timer fullHeld)))
           7%N 7%N 0 3 (payload 7 ++ [x0a])
           [PutErr ErrCodeServiceUnavailableException] [] FLB_RETRY
           (Some ErrCodeServiceUnavailableException)); concrete.
Defined.

Lemma AddRecord_timestamp_error_witness :
  @strftimeFormat N Z _ (fmtStrftime (demoPlugin "time" false)) (-1) = None /\
  AddRecord (demoPlugin "time" false) 0%N (-1) 0 = Ret (demoPlugin "time" false, FLB_ERROR).
Proof.
  split; [concrete|].
  apply AddRecord_timestamp_error; concrete.
Defined.

Lemma Flush_empty_batch_witness :
  records (demoPlugin "" false) = [] /\
  Flush 0 (demoPlugin "" false) = Ret (demoPlugin "" false, FLB_OK).
Proof.
  split; [concrete|].
  apply Flush_empty_batch; concrete.
Defined.

Lemma Flush_transport_error_witness :
  records threeHeld <> [] /\ timer_Check 0 (timer threeHeld) = false /\
  exists k, Flush 0 threeHeld = Call (records threeHeld) k /\
    forall code, exists output',
      k (PutErr code) = Ret (output', FLB_RETRY) /\
      records output' = records threeHeld /\
      dataLength output' = dataLength threeHeld.
Proof.
  split; [concrete|]. split; [concrete|].
  apply Flush_transport_error; concrete.
Defined.

Lemma AddRecord_encode_failure_witness :
  stampRecord (demoPlugin "" false) Unencodable 0 = Some Unencodable /\
  encodeRecord (dataKeys (demoPlugin "" false)) (replaceDots (demoPlugin "" false))
    (logKey (demoPlugin "" false)) Unencodable = None /\
  AddRecord (demoPlugin "" false) Unencodable 0 0 = Ret (demoPlugin "" false, FLB_OK).
Proof.
  split; [concrete|]. split; [concrete|].
  apply (AddRecord_encode_failure _ _ Unencodable); concrete.
Defined.

Lemma processAPIResponse_panics_on_extra_entry_witness :
  0 < Int64Value (FailedPutCount extraEntryResponse) /\
  Int64Value (FailedPutCount extraEntryResponse) <> len (records threeHeld) /\
  (length (records threeHeld) <= 3)%nat /\
  RequestResponses extraEntryResponse !! 3%nat = Some (failEntry "InternalFailure") /\
  processAPIResponse 0 extraEntryResponse threeHeld = Panicked.
Proof.
  split; [concrete|]. split; [concrete|]. split; [concrete|]. split; [concrete|].
  apply (processAPIResponse_panics_on_extra_entry _ _ _ 3 (failEntry "InternalFailure"));
    concrete.
Defined.

Lemma runOps_watchdog_stays_armed_witness :
  failingSince (timer failingHeld) <> None /\
  guarded notFullSuccess (fun _ => True) (fun o => failingSince (timer o) <> None)
    (runOps failingHeld [AddRecordOp 1%N 0 5; FlushOp 10]).
Proof.
  split; [concrete|].
  apply runOps_watchdog_stays_armed; concrete.
Defined.


Lemma replaceDots_renames_keys_witness :
  hasDot "_" = false /\
  replaceDotsValue "_" (VMap dottedRecord) (VMap dottedRecordReplaced) /\
  (In (KString "kubernetes_pod_name") (map fst dottedRecordReplaced) <->
   exists y, In y (map fst dottedRecord) /\
             KString "kubernetes_pod_name" = renameKey "_" y).
Proof.
  assert (Hrun : replaceDotsValue "_" (VMap dottedRecord) (VMap dottedRecordReplaced))
    by (apply (replaceDotsFuel_sound "_" 5); vm_compute; reflexivity).
  split; [concrete|]. split; [exact Hrun|].
  apply (replaceDots_renames_keys "_" dottedRecord); [concrete|exact Hrun].
Defined.
